(** * ApiGateway: route matching, rate limiting, credentials, proxy
      statistics and traffic roll-ups

    A shallow embedding of the Go gateway under [server/go] (the files
    [config.go], [proxy.go], [traffic.go], the rate limiter and
    [cmd/gateway/main.go]) together with the properties its design
    document states about it.

    Conventions of the embedding.
    - Go [int] and [int64] are [Z] with the 64-bit wrap-around written out
      ([wrap64]); [int32] likewise with [wrap32].
    - Go [string] is a sequence of bytes: [string] of the Standard Library.
    - Go [float64] is embedded as an exact rational ([Q]); statements about
      such values use [==].  Rounding is outside the model.
    - [time.Time] readings are nanosecond counts in [Z]; every call of
      [time.Now()] in the source is an explicit argument of the embedded
      function, in the order the source reads the clock.
    - [map[K]V] is stdpp's [gmap K V]; a map of pointers is a map of records
      with the mutated record written back under its key.
    - Results of calls outside the repository (URL parsing, the upstream
      round trip, base64, SHA-256, Unicode lower-casing, [strconv.Atoi],
      JSON decoding, writing the configuration file, the health probe) are
      arguments or section variables of the embedding.
    - The order in which a [range] loop meets the entries of a map is not
      fixed by Go: where it matters it is an argument, a list that is a
      permutation of the entries of the map. *)

From Stdlib Require Import ZArith QArith Qminmax Qfield Lqa String Ascii List Lia Bool.
From stdpp Require Import gmap strings list fin_maps.

Local Open Scope Z_scope.

(** ** Machine integers and durations *)

Module GoInt.

(** Two's complement reduction of an exact integer to [w] bits. *)
Definition wrap (w : Z) (x : Z) : Z :=
  (x + 2 ^ (w - 1)) mod 2 ^ w - 2 ^ (w - 1).

Definition wrap64 : Z -> Z := wrap 64.
Definition wrap32 : Z -> Z := wrap 32.

Definition in_int64 (x : Z) : Prop := - 2 ^ 63 <= x < 2 ^ 63.
Definition in_int32 (x : Z) : Prop := - 2 ^ 31 <= x < 2 ^ 31.

Definition minDuration : Z := - 2 ^ 63.
Definition maxDuration : Z := 2 ^ 63 - 1.

(** [t.Sub(u)]: the difference of two readings, saturated to the range of
    a [time.Duration]. *)
Definition Time_Sub (t u : Z) : Z :=
  Z.max minDuration (Z.min maxDuration (t - u)).

(** [d.Seconds()] as an exact rational: nanoseconds over [10^9]. *)
Definition Duration_Seconds (d : Z) : Q := Qmake d 1000000000.

(** [float64(n)] for an integer [n]. *)
Definition float64_of_int (n : Z) : Q := inject_Z n.

(** [a < b] on [float64]. *)
Definition Qltb (a b : Q) : bool := negb (Qle_bool b a).

End GoInt.

(** ** config.go: routes and the matcher *)

Module RouteTable.


Record Route := mkRoute {
  ID : Z;
  Path : string;
  Target : string;
  Methods : list string;
  RateLimit : Z;
  Timeout : Z;
  AuthRequired : bool;
  Active : bool
}.

Record Config := mkConfig {
  Port : Z;
  EnableRateLimit : bool;
  DefaultRateLimit : Z;
  DefaultTimeout : Z;
  Routes : list Route;
  nextRouteID : Z
}.

(** [strings.HasPrefix(s, p)]. *)
Fixpoint HasPrefix (s p : string) {struct p} : bool :=
  match p with
  | EmptyString => true
  | String c p' =>
      match s with
      | EmptyString => false
      | String d s' => if Ascii.eqb c d then HasPrefix s' p' else false
      end
  end.

Definition pathMatches (requestPath routePath : string) : bool :=
  if String.eqb requestPath routePath then true
  else if HasPrefix requestPath (routePath +:+ "/") then true
  else false.

(** The inner loop of [FindRouteByPath] over [route.Methods]. *)
Fixpoint methodAllowed (methods : list string) (method : string) : bool :=
  match methods with
  | [] => false
  | m :: ms =>
      if String.eqb m "*" || String.eqb m method then true
      else methodAllowed ms method
  end.

(** [FindRouteByPath] over the slice [c.Routes]; [None] is the source's
    [(Route{}, false)]. *)
Fixpoint findIn (routes : list Route) (path method : string) : option Route :=
  match routes with
  | [] => None
  | route :: rest =>
      if negb (Active route) then findIn rest path method
      else if pathMatches path (Path route) then
        if methodAllowed (Methods route) method then Some route
        else findIn rest path method
      else findIn rest path method
  end.

Definition FindRouteByPath (c : Config) (path method : string) : option Route :=
  findIn (Routes c) path method.

(** What the design document calls a matching route. *)
Definition path_matches_spec (requestPath routePath : string) : Prop :=
  requestPath = routePath \/
  exists rest, requestPath = routePath +:+ "/" +:+ rest.

Definition route_matches (path method : string) (r : Route) : Prop :=
  Active r = true /\
  path_matches_spec path (Path r) /\
  (In method (Methods r) \/ In "*" (Methods r)).

(** The route of the design document's matching example. *)
Definition usersRoute : Route :=
  mkRoute 1 "/api/users" "http://user-service:8080" ["GET"] 100 30 true true.

(** The test one iteration of [FindRouteByPath] makes, as one boolean. *)
Definition route_matchesb (path method : string) (r : Route) : bool :=
  Active r && pathMatches path (Path r) && methodAllowed (Methods r) method.

End RouteTable.

(** ** The rate limiter: one token bucket per path *)

Module RateLimiter.
Import GoInt RouteTable.
Local Open Scope Q_scope.

Record TokenBucket := mkBucket {
  tokens : Q;
  capacity : Q;
  refillRate : Q;          (* tokens per second *)
  lastRefillTime : Z
}.

Record RateLimiter := mkLimiter {
  config : Config;
  buckets : gmap string TokenBucket
}.

Definition NewRateLimiter (config : Config) : RateLimiter :=
  mkLimiter config ∅.

(** The bucket [getBucket] builds when the path has none; [now] is the
    reading of [time.Now()] in the struct literal. *)
Definition newBucket (rateLimit : Z) (now : Z) : TokenBucket :=
  let capacity := float64_of_int rateLimit in
  mkBucket capacity capacity (capacity / 60) now.

(** [getBucket]: look the path up under the read lock, look it up again
    under the write lock, create and store the bucket when it is still
    absent.  Returns the bucket and the limiter with the bucket stored. *)
Definition getBucket (rl : RateLimiter) (path : string) (rateLimit : Z)
    (now : Z) : TokenBucket * RateLimiter :=
  match buckets rl !! path with
  | Some bucket => (bucket, rl)
  | None =>
      match buckets rl !! path with
      | Some bucket => (bucket, rl)
      | None =>
          let bucket := newBucket rateLimit now in
          (bucket, mkLimiter (config rl) (<[path := bucket]> (buckets rl)))
      end
  end.

(** [TakeToken]: refill by the elapsed time, cap at the capacity, and take
    one token when at least one is there. *)
Definition TakeToken (tb : TokenBucket) (now : Z) : bool * TokenBucket :=
  let elapsed := Duration_Seconds (Time_Sub now (lastRefillTime tb)) in
  let tokens1 := tokens tb + elapsed * refillRate tb in
  let tokens2 := if Qltb (capacity tb) tokens1 then capacity tb else tokens1 in
  if Qltb tokens2 1 then
    (false, mkBucket tokens2 (capacity tb) (refillRate tb) now)
  else
    (true, mkBucket (tokens2 - 1) (capacity tb) (refillRate tb) now).

(** [Allow].  [created] is the clock reading used if the bucket has to be
    created, [now] the one [TakeToken] takes afterwards.  The bucket is a
    pointer in the source: its new contents are stored back under [path]. *)
Definition Allow (rl : RateLimiter) (path : string) (rateLimit : Z)
    (created now : Z) : bool * RateLimiter :=
  if negb (EnableRateLimit (config rl)) then (true, rl)
  else
    let rateLimit :=
      if (rateLimit <=? 0)%Z then DefaultRateLimit (config rl) else rateLimit in
    let '(bucket, rl1) := getBucket rl path rateLimit created in
    let '(ok, bucket') := TakeToken bucket now in
    (ok, mkLimiter (config rl1) (<[path := bucket']> (buckets rl1))).

(** The limit a call works with after the default is substituted. *)
Definition effectiveLimit (c : Config) (rateLimit : Z) : Z :=
  if (rateLimit <=? 0)%Z then DefaultRateLimit c else rateLimit.

(** The bucket a call of [Allow] works on: the stored one, or a fresh one. *)
Definition bucketBefore (rl : RateLimiter) (path : string) (rateLimit : Z)
    (created : Z) : TokenBucket :=
  match buckets rl !! path with
  | Some b => b
  | None => newBucket (effectiveLimit (config rl) rateLimit) created
  end.

(** The fill level the design document prescribes after the refill. *)
Definition refilled (b : TokenBucket) (now : Z) : Q :=
  Qmin (capacity b)
       (tokens b + Duration_Seconds (Time_Sub now (lastRefillTime b)) * refillRate b).


(** The defaults of [LoadConfig], without routes. *)
Definition defaultConfig : Config :=
  mkConfig 8000 true 100 30 [] 1.

(** The shape every stored bucket keeps. *)
Definition bucket_ok (b : TokenBucket) : Prop :=
  0 <= tokens b /\ tokens b <= capacity b /\ 0 <= refillRate b.

(** A limiter after two calls for one path, thirty seconds apart. *)
Definition twoCalls : RateLimiter :=
  snd (Allow (snd (Allow (NewRateLimiter defaultConfig) "/api/users" 2 0 0))
             "/api/users" 2 1 30000000000).


End RateLimiter.

(** ** proxy.go: forwarding and the request statistics *)

Module ProxyStats.
Import GoInt RouteTable.
Local Open Scope Q_scope.

Record RouteStat := mkRouteStat {
  Requests : Z;
  Errors : Z;
  AvgLatency : Q
}.

(** [RequestsPerSecond] is [None] when the division is by a zero elapsed
    time, where the source holds an infinity or a NaN. *)
Record Stats := mkStats {
  TotalRequests : Z;
  RequestsPerSecond : option Q;
  AvgResponseTime : Q;
  ErrorRate : Q;
  ActiveConnections : Z;
  Uptime : Z;
  RouteStats : gmap string RouteStat
}.

Record Proxy := mkProxy {
  config : Config;
  stats : Stats;
  startTime : Z;
  activeRequests : Z        (* int32 *)
}.

Definition NewProxy (config : Config) (now : Z) : Proxy :=
  mkProxy config (mkStats 0 (Some 0) 0 0 0 0 ∅) now 0.

(** The loop of [updateStats] over [p.stats.RouteStats]: the sum of
    [AvgLatency * Requests] and the sum of [Requests]. *)
Definition sumRouteStats (m : gmap string RouteStat) : Q * Z :=
  map_fold
    (fun (_ : string) (rs : RouteStat) (acc : Q * Z) =>
       (fst acc + AvgLatency rs * float64_of_int (Requests rs),
        wrap64 (snd acc + Requests rs)))
    (0, 0%Z) m.

(** [updateStats]; [now] is the reading behind [time.Since(p.startTime)]. *)
Definition updateStats (p : Proxy) (path : string) (latency : Z)
    (isError : bool) (now : Z) : Proxy :=
  let st := stats p in
  let total := wrap64 (TotalRequests st + 1) in
  let elapsed := Duration_Seconds (Time_Sub now (startTime p)) in
  let rps :=
    if Qeq_bool elapsed 0 then None
    else Some (float64_of_int total / elapsed) in
  let routeStat :=
    match RouteStats st !! path with
    | Some rs => rs
    | None => mkRouteStat 0 0 0
    end in
  let requests := wrap64 (Requests routeStat + 1) in
  let avgLatency :=
    (AvgLatency routeStat * float64_of_int (wrap64 (requests - 1))
     + Duration_Seconds latency) / float64_of_int requests in
  let errors :=
    if isError then wrap64 (Errors routeStat + 1) else Errors routeStat in
  let errorRate :=
    if isError then float64_of_int errors / float64_of_int requests
    else ErrorRate st in
  let routeStats :=
    <[path := mkRouteStat requests errors avgLatency]> (RouteStats st) in
  let sums := sumRouteStats routeStats in
  let avgResponseTime :=
    if (0 <? snd sums)%Z then fst sums / float64_of_int (snd sums)
    else fst sums in
  mkProxy (config p)
          (mkStats total rps avgResponseTime errorRate
                   (ActiveConnections st) (Uptime st) routeStats)
          (startTime p) (activeRequests p).

(** [GetStats]: a copy of the statistics with the two dynamic fields. *)
Definition GetStats (p : Proxy) (now : Z) : Stats :=
  let st := stats p in
  mkStats (TotalRequests st) (RequestsPerSecond st) (AvgResponseTime st)
          (ErrorRate st) (activeRequests p)
          (Time_Sub now (startTime p) ÷ 1000000000)%Z
          (RouteStats st).

(** What the world outside the gateway answers during one call of
    [ProxyRequest], and the clock readings the call takes.  The timeout the
    source configures on the transport ([route.Timeout], or the default when
    that is not positive) only bears on which answer the round trip gives. *)
Inductive RoundTrip :=
| Responded (status : Z)
| Failed (msg : string).

Record Exchange := mkExchange {
  parseError : option string;     (* [url.Parse(route.Target)] *)
  upstream : RoundTrip;           (* the transport's round trip *)
  clkStart : Z;                   (* [startTime := time.Now()] *)
  clkError : Z;                   (* [time.Since] in the error handler *)
  clkErrorStats : Z;              (* [time.Since] in its [updateStats] *)
  clkDone : Z;                    (* [time.Since] after [ServeHTTP] *)
  clkDoneStats : Z                (* [time.Since] in its [updateStats] *)
}.

Definition StatusGatewayTimeout : Z := 504.
Definition StatusServiceUnavailable : Z := 503.

Definition withActive (p : Proxy) (n : Z) : Proxy :=
  mkProxy (config p) (stats p) (startTime p) n.

(** [proxy.ErrorHandler]: record the request as an error, then answer 504
    or 503. *)
Definition errorHandler (p : Proxy) (route : Route) (x : Exchange)
    (msg : string) : Z * Proxy :=
  let p' := updateStats p (Path route) (Time_Sub (clkError x) (clkStart x))
                        true (clkErrorStats x) in
  if String.eqb msg "net/http: timeout awaiting response headers"
  then (StatusGatewayTimeout, p')
  else (StatusServiceUnavailable, p').

(** [proxy.ServeHTTP]: the reverse proxy writes the upstream's response, or
    calls the error handler when the round trip fails, and returns. *)
Definition ServeHTTP (p : Proxy) (route : Route) (x : Exchange) : Z * Proxy :=
  match upstream x with
  | Responded status => (status, p)
  | Failed msg => errorHandler p route x msg
  end.

(** How a call of [ProxyRequest] ends: with an error returned to the
    handler, or with [nil] after a status was written to the client. *)
Inductive Outcome :=
| ReturnedError (e : string)
| Served (status : Z).

(** [ProxyRequest]: its outcome and the proxy afterwards.  The deferred
    decrement runs on both returns. *)
Definition ProxyRequest (p : Proxy) (route : Route) (x : Exchange)
    : Outcome * Proxy :=
  let p1 := withActive p (wrap32 (activeRequests p + 1)) in
  let '(outcome, p2) :=
    match parseError x with
    | Some e => (ReturnedError ("invalid target URL: " +:+ e), p1)
    | None =>
        let '(status, p2) := ServeHTTP p1 route x in
        let p3 := updateStats p2 (Path route)
                    (Time_Sub (clkDone x) (clkStart x)) false (clkDoneStats x) in
        (Served status, p3)
    end in
  (outcome, withActive p2 (wrap32 (activeRequests p2 - 1))).

(** Totals over all routes, for the ratio the design document calls the
    global error rate. *)
Definition totalRequests (st : Stats) : Z :=
  map_fold (fun (_ : string) rs n => (n + Requests rs)%Z) 0%Z (RouteStats st).
Definition totalErrors (st : Stats) : Z :=
  map_fold (fun (_ : string) rs n => (n + Errors rs)%Z) 0%Z (RouteStats st).

(** A sequence of calls of [updateStats]. *)
Record Sample := mkSample {
  s_path : string;
  s_latency : Z;
  s_isError : bool;
  s_now : Z
}.

Definition recordAll (p : Proxy) (calls : list Sample) : Proxy :=
  fold_left
    (fun p c => updateStats p (s_path c) (s_latency c) (s_isError c) (s_now c))
    calls p.

(** The latencies, in seconds, of the calls made for [path]. *)
Fixpoint latenciesOf (path : string) (calls : list Sample) : list Q :=
  match calls with
  | [] => []
  | c :: cs =>
      if String.eqb (s_path c) path
      then Duration_Seconds (s_latency c) :: latenciesOf path cs
      else latenciesOf path cs
  end.

Definition Qsum (l : list Q) : Q := fold_right Qplus 0 l.

(** The batch definition: the arithmetic mean of a list. *)
Definition mean (l : list Q) : Q :=
  Qsum l / inject_Z (Z.of_nat (length l)).

(** What the incremental update maintains for one path: the request count
    is the number of latencies seen, and the running average times that
    count is their sum. *)
Definition tracks (path : string) (p : Proxy) (ls : list Q) : Prop :=
  match RouteStats (stats p) !! path with
  | None => ls = []
  | Some rs =>
      ls <> [] /\
      Requests rs = Z.of_nat (length ls) /\
      AvgLatency rs * inject_Z (Z.of_nat (length ls)) == Qsum ls
  end.

(** Four recordings, three of them for [/api/users]. *)
Definition threeCalls : list Sample :=
  [ mkSample "/api/users" 100000000 false 1000000000;
    mkSample "/public" 700000000 false 2000000000;
    mkSample "/api/users" 200000000 true 3000000000;
    mkSample "/api/users" 600000000 false 4000000000 ].

(** One failed and one successful request on the same route. *)
Definition errorThenSuccess : list Sample :=
  [ mkSample "/api/users" 100000000 true 1000000000;
    mkSample "/api/users" 100000000 false 2000000000 ].

(** A successful request on one route, a failed one on another. *)
Definition successThenOtherError : list Sample :=
  [ mkSample "/api/users" 100000000 false 1000000000;
    mkSample "/public" 100000000 true 2000000000 ].

(** The upstream does not send response headers in time. *)
Definition timedOut : Exchange :=
  mkExchange None (Failed "net/http: timeout awaiting response headers")
             1000000000 31000000000 31000000001 31000000002 31000000003.

(** The upstream refuses the connection. *)
Definition refused : Exchange :=
  mkExchange None (Failed "dial tcp 10.0.0.7:8080: connect: connection refused")
             1000000000 1001000000 1001000001 1001000002 1001000003.

(** What the counters of every route satisfy after [n] recordings. *)
Definition counters_ok (n : Z) (p : Proxy) : Prop :=
  (forall path rs,
      RouteStats (stats p) !! path = Some rs ->
      (0 <= Errors rs <= Requests rs)%Z /\ (Requests rs <= n)%Z) /\
  0 <= ErrorRate (stats p).

(** Three recordings on two routes, two of them errors. *)
Definition mixedCalls : list Sample :=
  [ mkSample "/api/users" 100000000 false 1000000000;
    mkSample "/public" 700000000 true 2000000000;
    mkSample "/api/users" 200000000 true 3000000000 ].

End ProxyStats.

(** ** The credential store ([Auth]) *)

Module Auth.

Record Credential := mkCredential {
  ID : Z;
  RouteID : Z;
  Name : string;
  APIKey : string;
  APISecret : string;     (* the stored hash *)
  Created : Z;
  LastUsed : Z;
  Enabled : bool
}.

Record Auth := mkAuth {
  credentials : gmap string Credential;   (* API key -> credential *)
  routeAuth : gmap Z (list string)        (* route ID -> API keys *)
}.

Definition NewAuth : Auth := mkAuth ∅ ∅.

(** [a.routeAuth[routeID]]: the nil slice when the route has no entry. *)
Definition keysOf (a : Auth) (routeID : Z) : list string :=
  match routeAuth a !! routeID with
  | Some keys => keys
  | None => []
  end.

(** [strings.Split(s, sep)] for a separator of one byte. *)
Fixpoint Split (sep : ascii) (s : string) : list string :=
  match s with
  | EmptyString => [EmptyString]
  | String c s' =>
      if Ascii.eqb c sep then EmptyString :: Split sep s'
      else match Split sep s' with
           | p :: ps => String c p :: ps
           | [] => [String c EmptyString]
           end
  end.

(** [strings.SplitN(s, sep, 2)] for a separator of one byte: cut at the
    first separator only. *)
Fixpoint SplitN2 (sep : ascii) (s : string) : list string :=
  match s with
  | EmptyString => [EmptyString]
  | String c s' =>
      if Ascii.eqb c sep then [EmptyString; s']
      else match SplitN2 sep s' with
           | p :: ps => String c p :: ps
           | [] => [String c EmptyString]
           end
  end.

(** The loop over [a.routeAuth[routeID]] that sets [validForRoute]. *)
Fixpoint containsKey (keys : list string) (apiKey : string) : bool :=
  match keys with
  | [] => false
  | key :: rest => if String.eqb key apiKey then true else containsKey rest apiKey
  end.

Definition touch (cred : Credential) (now : Z) : Credential :=
  mkCredential (ID cred) (RouteID cred) (Name cred) (APIKey cred)
               (APISecret cred) (Created cred) now (Enabled cred).

Section Libraries.

(** Go's standard library, as far as [Authenticate] calls it:
    [strings.ToLower], [base64.StdEncoding.DecodeString] ([None] for
    its error) and the lower-case hexadecimal SHA-256 digest. *)
Variable ToLower : string -> string.
Variable DecodeString : string -> option string.
Variable Sum256Hex : string -> string.

Definition hashSecret (secret : string) : string := Sum256Hex secret.

(** [AddCredential]; [now] is the reading used for an unset [Created]. *)
Definition AddCredential (a : Auth) (cred : Credential) (now : Z)
    : option string * Auth :=
  match credentials a !! APIKey cred with
  | Some _ => (Some "credential with API key already exists", a)
  | None =>
      let cred :=
        if (Created cred =? 0)%Z
        then mkCredential (ID cred) (RouteID cred) (Name cred) (APIKey cred)
                          (APISecret cred) now (LastUsed cred) (Enabled cred)
        else cred in
      (None,
       mkAuth (<[APIKey cred := cred]> (credentials a))
              (<[RouteID cred := keysOf a (RouteID cred) ++ [APIKey cred]]>
                 (routeAuth a)))
  end.

(** [Authenticate] on the value of the request's [Authorization] header
    (empty when the header is absent). *)
Definition Authenticate (a : Auth) (authHeader : string) (routeID : Z)
    (now : Z) : bool * Auth :=
  if String.eqb authHeader "" then (false, a)
  else
    match Split " " authHeader with
    | [scheme; payload] =>
        if negb (String.eqb (ToLower scheme) "basic") then (false, a)
        else
          match DecodeString payload with
          | None => (false, a)
          | Some decoded =>
              match SplitN2 ":" decoded with
              | [apiKey; apiSecret] =>
                  match credentials a !! apiKey with
                  | None => (false, a)
                  | Some cred =>
                      if negb (Enabled cred) then (false, a)
                      else if negb (containsKey (keysOf a routeID) apiKey)
                      then (false, a)
                      else if negb (String.eqb (hashSecret apiSecret)
                                               (APISecret cred))
                      then (false, a)
                      else
                        (true,
                         mkAuth (<[apiKey := touch cred now]> (credentials a))
                                (routeAuth a))
                  end
              | _ => (false, a)
              end
          end
    | _ => (false, a)
    end.

(** The header is [Basic <base64>] carrying [key:secret]: one space, the
    scheme is "basic" up to case, the rest decodes, and the key is what
    stands before the first colon. *)
Fixpoint hasByte (c : ascii) (s : string) : bool :=
  match s with
  | EmptyString => false
  | String d s' => if Ascii.eqb d c then true else hasByte c s'
  end.

Definition basic_credentials (authHeader key secret : string) : Prop :=
  exists scheme payload,
    authHeader = scheme +:+ " " +:+ payload /\
    hasByte " " scheme = false /\
    hasByte " " payload = false /\
    ToLower scheme = "basic" /\
    DecodeString payload = Some (key +:+ ":" +:+ secret) /\
    hasByte ":" key = false.

(** All the conditions of the design document for one header and route. *)
Definition accepted (a : Auth) (authHeader : string) (routeID : Z)
    (key : string) (cred : Credential) : Prop :=
  exists secret,
    basic_credentials authHeader key secret /\
    credentials a !! key = Some cred /\
    Enabled cred = true /\
    In key (keysOf a routeID) /\
    hashSecret secret = APISecret cred.

End Libraries.

End Auth.

(** ** Concrete stand-ins for the library calls, used by the examples *)

Module GoLibrary.

Definition lowerByte (c : ascii) : ascii :=
  let n := nat_of_ascii c in
  if (65 <=? n)%nat && (n <=? 90)%nat then ascii_of_nat (n + 32) else c.

(** [strings.ToLower] on strings of ASCII bytes. *)
Fixpoint asciiLower (s : string) : string :=
  match s with
  | EmptyString => EmptyString
  | String c s' => String (lowerByte c) (asciiLower s')
  end.

(** The value of one character of the standard base64 alphabet. *)
Definition b64value (c : ascii) : option N :=
  let n := N_of_ascii c in
  if (65 <=? n)%N && (n <=? 90)%N then Some (n - 65)%N
  else if (97 <=? n)%N && (n <=? 122)%N then Some (n - 71)%N
  else if (48 <=? n)%N && (n <=? 57)%N then Some (n + 4)%N
  else if (n =? 43)%N then Some 62%N
  else if (n =? 47)%N then Some 63%N
  else None.

Definition byteOf (n : N) : ascii := ascii_of_N (n mod 256).

(** Padded standard base64, four characters at a time. *)
Fixpoint b64decode (s : string) : option string :=
  match s with
  | EmptyString => Some EmptyString
  | String a (String b (String c (String d rest))) =>
      match b64value a, b64value b with
      | Some x, Some y =>
          if Ascii.eqb d "=" then
            match rest with
            | EmptyString =>
                if Ascii.eqb c "=" then
                  Some (String (byteOf (x * 4 + y / 16)) EmptyString)
                else
                  match b64value c with
                  | Some z =>
                      Some (String (byteOf (x * 4 + y / 16))
                           (String (byteOf (y * 16 + z / 4)) EmptyString))
                  | None => None
                  end
            | _ => None
            end
          else
            match b64value c, b64value d, b64decode rest with
            | Some z, Some w, Some tail =>
                Some (String (byteOf (x * 4 + y / 16))
                     (String (byteOf (y * 16 + z / 4))
                     (String (byteOf (z * 64 + w)) tail)))
            | _, _, _ => None
            end
      | _, _ => None
      end
  | _ => None
  end.

(** A stand-in for the SHA-256 digest: the statements about
    [Authenticate] hold for every function in its place. *)
Definition digest (s : string) : string := "sha256:" +:+ s.

End GoLibrary.

(** ** A credential store for the examples *)

Module AuthFixtures.
Import Auth GoLibrary.

Definition usersClient : Credential :=
  mkCredential 1 1 "users client" "apk_1" (digest "aps_1") 0 0 true.

Definition productsClient : Credential :=
  mkCredential 2 2 "products client" "apk_2" (digest "aps_2") 0 0 false.

(** A store with an enabled credential for route 1 and a disabled one for
    route 2. *)
Definition store : Auth :=
  snd (AddCredential (snd (AddCredential NewAuth usersClient 100))
                     productsClient 200).

End AuthFixtures.

(** ** traffic.go: the hourly roll-up *)

Module Traffic.
Import GoInt.

(** Modelled from the spec: the declaration of the struct [TrafficData] is
    not among the sources.  The design document gives a data point as
    {timestamp, requests, errors, latency}; [aggregateHourlyData] adds
    the three counters to [int] accumulators and stores
    [time.Now().Format(...)] in the first field, which fixes the types. *)
Record TrafficData := mkTrafficData {
  Timestamp : string;
  Requests : Z;
  Errors : Z;
  Latency : Z
}.

Record TrafficAnalytics := mkAnalytics {
  hourlyData : list TrafficData;       (* last 60 minutes *)
  dailyData : list TrafficData;        (* last 24 hours *)
  weeklyData : list TrafficData;       (* last 7 days *)
  pathDistribution : gmap string Z;
  errorTypes : gmap string Z;
  latencyDistribution : gmap string Z
}.

(** The four accumulators of the summing loop. *)
Record Totals := mkTotals {
  totalRequests : Z;
  totalErrors : Z;
  totalLatency : Z;
  count : Z
}.

Fixpoint sumLoop (data : list TrafficData) (acc : Totals) : Totals :=
  match data with
  | [] => acc
  | d :: rest =>
      sumLoop rest
        (mkTotals (wrap64 (totalRequests acc + Requests d))
                  (wrap64 (totalErrors acc + Errors d))
                  (wrap64 (totalLatency acc + Latency d))
                  (wrap64 (count acc + 1)))
  end.

(** Go's [a / b] on [int]: the quotient rounded toward zero. *)
Definition int_div (a b : Z) : Z := wrap64 (a ÷ b).

(** [aggregateHourlyData]; [stamp] is [time.Now().Format(time.RFC3339)]. *)
Definition aggregateHourlyData (ta : TrafficAnalytics) (stamp : string)
    : TrafficAnalytics :=
  if (length (hourlyData ta) =? 0)%nat then ta
  else
    let t := sumLoop (hourlyData ta) (mkTotals 0 0 0 0) in
    let hourData :=
      mkTrafficData stamp
                    (int_div (totalRequests t) (count t))
                    (int_div (totalErrors t) (count t))
                    (int_div (totalLatency t) (count t)) in
    let daily := dailyData ta ++ [hourData] in
    let daily :=
      if (24 <? length daily)%nat then drop (length daily - 24) daily
      else daily in
    mkAnalytics (hourlyData ta) daily (weeklyData ta)
                (pathDistribution ta) (errorTypes ta) (latencyDistribution ta).

(** The exact sum of one field over a buffer. *)
Definition sumOf (f : TrafficData -> Z) (data : list TrafficData) : Z :=
  fold_right (fun d s => f d + s) 0 data.

(** The point the design document asks for: each counter's sum over the
    samples present, divided by their number. *)
Definition averagePoint (stamp : string) (data : list TrafficData)
    : TrafficData :=
  let n := Z.of_nat (length data) in
  mkTrafficData stamp (sumOf Requests data ÷ n) (sumOf Errors data ÷ n)
                (sumOf Latency data ÷ n).

(** A running sum with wrap-around, as each accumulator of the loop. *)
Definition wsum (f : TrafficData -> Z) (data : list TrafficData) (a : Z) : Z :=
  fold_left (fun a d => wrap64 (a + f d)) data a.

Definition threeMinutes : TrafficAnalytics :=
  mkAnalytics
    [ mkTrafficData "2024-05-01T10:00:00Z" 120 3 45;
      mkTrafficData "2024-05-01T10:01:00Z" 90 0 38;
      mkTrafficData "2024-05-01T10:02:00Z" 61 2 52 ]
    [] [] ∅ ∅ ∅.

End Traffic.

(** ** cmd/gateway/main.go: the catch-all handler *)

Module Gateway.
Import GoInt RouteTable ProxyStats.

Record Request := mkRequest {
  URLPath : string;
  Method : string;
  Authorization : string       (* [r.Header.Get("Authorization")] *)
}.

(** The three package variables.  In the running gateway the limiter and
    the proxy point at this same [config]. *)
Record Gateway := mkGateway {
  config : Config;
  proxy : Proxy;
  rateLimiter : RateLimiter.RateLimiter
}.

(** What the client is answered: by the handler itself, or after
    [proxyRequest] ran. *)
Inductive Response :=
| Answered (status : Z)
| Proxied (status : Z).

Definition StatusNotFound : Z := 404.
Definition StatusTooManyRequests : Z := 429.
Definition StatusUnauthorized : Z := 401.
Definition StatusInternalServerError : Z := 500.

(** The status for an error returned by [proxyRequest]. *)
Definition errorStatus (e : string) : Z :=
  if String.eqb e "gateway timeout" then StatusGatewayTimeout
  else if String.eqb e "service unavailable" then StatusServiceUnavailable
  else StatusInternalServerError.

(** [handleProxyRequest]; [created] and [now] are the limiter's clock
    readings, [x] what the call of [proxyRequest] meets. *)
Definition handleProxyRequest (g : Gateway) (r : Request)
    (created now : Z) (x : Exchange) : Response * Gateway :=
  match FindRouteByPath (config g) (URLPath r) (Method r) with
  | None => (Answered StatusNotFound, g)
  | Some route =>
      let '(allowed, rl) :=
        if EnableRateLimit (config g)
        then RateLimiter.Allow (rateLimiter g) (Path route) (RateLimit route)
                               created now
        else (true, rateLimiter g) in
      if negb allowed
      then (Answered StatusTooManyRequests, mkGateway (config g) (proxy g) rl)
      else if AuthRequired route && String.eqb (Authorization r) ""
      then (Answered StatusUnauthorized, mkGateway (config g) (proxy g) rl)
      else
        let '(outcome, p') := ProxyRequest (proxy g) route x in
        let status :=
          match outcome with
          | ReturnedError e => errorStatus e
          | Served s => s
          end in
        (Proxied status, mkGateway (config g) p' rl)
  end.

(** The request passed the limiter, as the handler consults it. *)
Definition passesLimiter (g : Gateway) (route : Route) (created now : Z)
    : Prop :=
  EnableRateLimit (config g) = false \/
  fst (RateLimiter.Allow (rateLimiter g) (Path route) (RateLimit route)
                         created now) = true.

Definition isProxied (resp : Response) : Prop :=
  match resp with
  | Proxied _ => True
  | Answered _ => False
  end.

(** A gateway just started, with the one route [/api/users]. *)
Definition gateway0 : Gateway :=
  let c := mkConfig 8000 true 100 30 [usersRoute] 2 in
  mkGateway c (NewProxy c 0) (RateLimiter.NewRateLimiter c).

(** The upstream answers 200 after twenty milliseconds. *)
Definition answered200 : Exchange :=
  mkExchange None (Responded 200) 1000000000 0 0 1020000000 1020000001.

(** [GET /api/users] with the Basic credentials [apk_1:wrong]. *)
Definition wrongSecret : Request :=
  mkRequest "/api/users" "GET" "Basic YXBrXzE6d3Jvbmc=".

(** [GET /api/users] without an [Authorization] header. *)
Definition noHeader : Request := mkRequest "/api/users" "GET" "".

(** [validateRoute]: [None] is the source's [nil]. *)
Definition validateRoute (route : Route) : option string :=
  if String.eqb (Path route) "" then Some "path is required"
  else if negb (HasPrefix (Path route) "/") then Some "path must start with /"
  else if String.eqb (Target route) "" then Some "target is required"
  else if (length (Methods route) =? 0)%nat
  then Some "at least one HTTP method must be specified"
  else None.

End Gateway.

(** ** The rate limiter over a run of calls *)

Module RateLimiterRuns.
Import GoInt RouteTable RateLimiter.
Local Open Scope Q_scope.

(** Consecutive calls of [TakeToken] on one bucket, at the clock readings
    given: how many were accepted, and the bucket afterwards. *)
Fixpoint takeAll (b : TokenBucket) (readings : list Z) : nat * TokenBucket :=
  match readings with
  | [] => (0%nat, b)
  | now :: rest =>
      let '(ok, b1) := TakeToken b now in
      let '(n, b2) := takeAll b1 rest in
      ((if ok then S n else n), b2)
  end.


(** The seconds that pass from the reading [t] to the reading [u]. *)
Definition secondsBetween (t u : Z) : Q := Qmake (u - t) 1000000000.


End RateLimiterRuns.

(** ** proxy.go: the engine-wide figures over a run of recordings *)

Module ProxyStatsRuns.
Import GoInt RouteTable ProxyStats.
Local Open Scope Q_scope.

(** The latencies, in seconds, of all the calls made, in order. *)
Definition latencies (calls : list Sample) : list Q :=
  map (fun c => Duration_Seconds (s_latency c)) calls.

(** What the engine-wide figures are after [n] recordings with the
    latencies [ls]. *)
Definition totals_ok (n : Z) (ls : list Q) (p : Proxy) : Prop :=
  TotalRequests (stats p) = n /\
  fst (sumRouteStats (RouteStats (stats p))) == Qsum ls /\
  snd (sumRouteStats (RouteStats (stats p))) = n /\
  ((0 < n)%Z -> AvgResponseTime (stats p) == Qsum ls / inject_Z n).

End ProxyStatsRuns.

(** ** config.go: loading the configuration and the route table's
       operations by id *)

Module RouteCRUD.
Import GoInt RouteTable.

(** The configuration with another route slice and next id. *)
Definition withRoutes (c : Config) (routes : list Route) (next : Z) : Config :=
  mkConfig (Port c) (EnableRateLimit c) (DefaultRateLimit c) (DefaultTimeout c)
           routes next.

(** [route.ID = id] on a copy of the route. *)
Definition withID (route : Route) (id : Z) : Route :=
  mkRoute id (Path route) (Target route) (Methods route) (RateLimit route)
          (Timeout route) (AuthRequired route) (Active route).

(** The four routes [LoadConfig] writes when there is no configuration
    file. *)
Definition defaultRoutes : list Route :=
  [ mkRoute 1 "/api/users" "http://user-service:8080"
            ["GET"; "POST"; "PUT"; "DELETE"] 100 30 true true;
    mkRoute 2 "/api/products" "http://product-service:8080"
            ["GET"; "POST"; "PUT"; "DELETE"] 50 30 true true;
    mkRoute 3 "/api/auth" "http://auth-service:8080" ["POST"] 20 10 false true;
    mkRoute 4 "/public" "http://static-service:8080" ["GET"] 500 5 false true ].

(** The loop of [LoadConfig] that sets [nextRouteID], started at [next]. *)
Fixpoint scanNextID (routes : list Route) (next : Z) : Z :=
  match routes with
  | [] => next
  | route :: rest =>
      scanNextID rest (if ID route >=? next then wrap64 (ID route + 1) else next)
  end.

(** What [LoadConfig] finds at the configuration path: no file (and whether
    writing the default one works), a file that cannot be read, one that
    does not parse, or the configuration [json.Unmarshal] leaves. *)
Inductive ConfigFile :=
| Missing (saved : bool)
| Unreadable
| Malformed
| Parsed (c : Config).

(** [LoadConfig]; [None] is a returned error. *)
Definition LoadConfig (file : ConfigFile) : option Config :=
  match file with
  | Missing saved =>
      if saved then Some (mkConfig 8000 true 100 30 defaultRoutes 5) else None
  | Unreadable => None
  | Malformed => None
  | Parsed c => Some (withRoutes c (Routes c) (scanNextID (Routes c) 1))
  end.

(** [GetRoutes]: a copy of the slice. *)
Definition GetRoutes (c : Config) : list Route := Routes c.

Fixpoint getIn (routes : list Route) (id : Z) : option Route :=
  match routes with
  | [] => None
  | route :: rest => if ID route =? id then Some route else getIn rest id
  end.

(** [GetRoute]; [None] is the source's [(Route{}, false)]. *)
Definition GetRoute (c : Config) (id : Z) : option Route :=
  getIn (Routes c) id.

(** [AddRoute]: the id handed out and the configuration afterwards. *)
Definition AddRoute (c : Config) (route : Route) : Z * Config :=
  let route := withID route (nextRouteID c) in
  (ID route,
   withRoutes c (Routes c ++ [route]) (wrap64 (nextRouteID c + 1))).

(** The loop of [UpdateRoute]: the slice with the first route of the same
    id overwritten, [None] when there is none. *)
Fixpoint updateIn (routes : list Route) (route : Route) : option (list Route) :=
  match routes with
  | [] => None
  | r :: rest =>
      if ID r =? ID route then Some (route :: rest)
      else match updateIn rest route with
           | Some rest' => Some (r :: rest')
           | None => None
           end
  end.

Definition UpdateRoute (c : Config) (route : Route) : bool * Config :=
  match updateIn (Routes c) route with
  | Some routes => (true, withRoutes c routes (nextRouteID c))
  | None => (false, c)
  end.

(** The loop of [DeleteRoute]: the slice without the first route of that
    id, [None] when there is none. *)
Fixpoint deleteIn (routes : list Route) (id : Z) : option (list Route) :=
  match routes with
  | [] => None
  | r :: rest =>
      if ID r =? id then Some rest
      else match deleteIn rest id with
           | Some rest' => Some (r :: rest')
           | None => None
           end
  end.

Definition DeleteRoute (c : Config) (id : Z) : bool * Config :=
  match deleteIn (Routes c) id with
  | Some routes => (true, withRoutes c routes (nextRouteID c))
  | None => (false, c)
  end.

(** The next id to hand out is at least 1, every route's id is below it,
    and no two routes share an id. *)
Definition ids_ok (c : Config) : Prop :=
  1 <= nextRouteID c /\
  Forall (fun r => ID r < nextRouteID c) (Routes c) /\
  NoDup (map ID (Routes c)).

(** One operation on the table; an [AddRoute] only while the next id does
    not overflow. *)
Inductive crud_step : Config -> Config -> Prop :=
| step_add c route :
    nextRouteID c + 1 < 2 ^ 63 ->
    crud_step c (snd (AddRoute c route))
| step_update c route : crud_step c (snd (UpdateRoute c route))
| step_delete c id : crud_step c (snd (DeleteRoute c id)).

(** Any number of operations. *)
Inductive crud_steps : Config -> Config -> Prop :=
| steps_none c : crud_steps c c
| steps_more c c1 c2 : crud_steps c c1 -> crud_step c1 c2 -> crud_steps c c2.

(** A route for orders, as a client would post it. *)
Definition ordersRoute : Route :=
  mkRoute 0 "/api/orders" "http://order-svc:8082" ["GET"; "POST"] 50 5000
          true true.

End RouteCRUD.

(** ** The credential store: deleting, listing, saving and loading
    (auth part of config.go) *)

Module AuthStore.
Import Auth.

(** The first loop of [DeleteCredential] over [a.credentials]. Go ranges
    over a map in an unspecified order: [range] is the sequence of entries
    as the loop meets them. The result is the pair [(apiKey, routeID)],
    both zero values when no credential has the id. *)
Fixpoint findByID (range : list (string * Credential)) (id : Z) : string * Z :=
  match range with
  | [] => ("", 0)
  | (k, cred) :: rest =>
      if ID cred =? id then (k, RouteID cred) else findByID rest id
  end.

(** The second loop of [DeleteCredential]: the key list without the first
    occurrence of the key, [None] when the key is not listed. *)
Fixpoint removeKey (keys : list string) (apiKey : string)
    : option (list string) :=
  match keys with
  | [] => None
  | k :: rest =>
      if String.eqb k apiKey then Some rest
      else match removeKey rest apiKey with
           | Some rest' => Some (k :: rest')
           | None => None
           end
  end.

Definition DeleteCredential (a : Auth) (range : list (string * Credential))
    (id : Z) : bool * Auth :=
  let (apiKey, routeID) := findByID range id in
  if String.eqb apiKey "" then (false, a)
  else
    let creds := delete apiKey (credentials a) in
    match removeKey (keysOf a routeID) apiKey with
    | Some keys => (true, mkAuth creds (<[routeID := keys]> (routeAuth a)))
    | None => (true, mkAuth creds (routeAuth a))
    end.

(** [credCopy.APISecret = ""]. *)
Definition redact (cred : Credential) : Credential :=
  mkCredential (ID cred) (RouteID cred) (Name cred) (APIKey cred) ""
               (Created cred) (LastUsed cred) (Enabled cred).

(** [GetCredentials], on the entries in the order the loop meets them. *)
Definition GetCredentials (range : list (string * Credential))
    : list Credential :=
  map (fun kc => redact (snd kc)) range.

(** The loop of [GetCredentialsByRoute] over the keys of the route. *)
Fixpoint redactedOf (creds : gmap string Credential) (keys : list string)
    : list Credential :=
  match keys with
  | [] => []
  | key :: rest =>
      match creds !! key with
      | Some cred => redact cred :: redactedOf creds rest
      | None => redactedOf creds rest
      end
  end.

Definition GetCredentialsByRoute (a : Auth) (routeID : Z) : list Credential :=
  redactedOf (credentials a) (keysOf a routeID).

(** One round of the loop of [LoadCredentials]. *)
Definition loadOne (a : Auth) (cred : Credential) : Auth :=
  mkAuth (<[APIKey cred := cred]> (credentials a))
         (<[RouteID cred := keysOf a (RouteID cred) ++ [APIKey cred]]>
            (routeAuth a)).

(** [LoadCredentials]; [parsed] is what [json.Unmarshal] made of the data,
    [None] for its error. The boolean is true when the error returned is
    nil. *)
Definition LoadCredentials (a : Auth) (parsed : option (list Credential))
    : bool * Auth :=
  match parsed with
  | None => (false, a)
  | Some creds => (true, fold_left loadOne creds NewAuth)
  end.

(** The slice [SaveCredentials] hands to [json.Marshal]. *)
Definition SaveCredentials (range : list (string * Credential))
    : list Credential :=
  map snd range.

(** The two maps agree: every credential is stored under its own key and
    listed for its own route, every listed key has a credential of that
    route, and no key is listed twice. *)
Definition index_ok (a : Auth) : Prop :=
  (forall k cred,
     credentials a !! k = Some cred ->
     APIKey cred = k /\ In k (keysOf a (RouteID cred))) /\
  (forall r k,
     In k (keysOf a r) ->
     exists cred, credentials a !! k = Some cred /\ RouteID cred = r) /\
  (forall r, NoDup (keysOf a r)).

Section Libraries.

Variable ToLower : string -> string.
Variable DecodeString : string -> option string.
Variable Sum256Hex : string -> string.

(** One call on the store. *)
Inductive store_step : Auth -> Auth -> Prop :=
| step_add a cred now :
    store_step a (snd (AddCredential a cred now))
| step_authenticate a authHeader routeID now :
    store_step a (snd (Authenticate ToLower DecodeString Sum256Hex
                                    a authHeader routeID now))
| step_delete a range id :
    range ≡ₚ map_to_list (credentials a) ->
    store_step a (snd (DeleteCredential a range id)).

(** The stores [NewAuth] can become by such calls. *)
Inductive store_reachable : Auth -> Prop :=
| reach_new : store_reachable NewAuth
| reach_step a a' : store_reachable a -> store_step a a' -> store_reachable a'.

End Libraries.

End AuthStore.

(** ** The sample buffers of the analytics (traffic.go) *)

Module TrafficBuffers.
Import GoInt Traffic.

(** The buffers of [NewTrafficAnalytics]: empty slices and maps. *)
Definition NewTrafficAnalytics : TrafficAnalytics := mkAnalytics [] [] [] ∅ ∅ ∅.

(** [if len(s) > n { s = s[len(s)-n:] }]. *)
Definition keepLast (n : nat) (s : list TrafficData) : list TrafficData :=
  if (n <? length s)%nat then drop (length s - n) s else s.

(** The three maps [updateMockData] builds from its random draws. *)
Record MockData := mkMock {
  paths : gmap string Z;
  errorKinds : gmap string Z;
  latencyRanges : gmap string Z
}.

Definition updateMockData (ta : TrafficAnalytics) (m : MockData)
    : TrafficAnalytics :=
  mkAnalytics (hourlyData ta) (dailyData ta) (weeklyData ta)
              (paths m) (errorKinds m) (latencyRanges m).

(** [collectData]; [data] is what [ta.proxy.GetTrafficData()] returned and
    [m] the maps drawn by [updateMockData]. *)
Definition collectData (ta : TrafficAnalytics) (data : list TrafficData)
    (m : MockData) : TrafficAnalytics :=
  match last data with
  | None => ta
  | Some latestData =>
      updateMockData
        (mkAnalytics (keepLast 60 (hourlyData ta ++ [latestData]))
                     (dailyData ta) (weeklyData ta)
                     (pathDistribution ta) (errorTypes ta)
                     (latencyDistribution ta))
        m
  end.

(** [aggregateDailyData]; [stamp] is [time.Now().Format(time.RFC3339)]. *)
Definition aggregateDailyData (ta : TrafficAnalytics) (stamp : string)
    : TrafficAnalytics :=
  if (length (dailyData ta) =? 0)%nat then ta
  else
    let t := sumLoop (dailyData ta) (mkTotals 0 0 0 0) in
    let dayData :=
      mkTrafficData stamp
                    (int_div (totalRequests t) (count t))
                    (int_div (totalErrors t) (count t))
                    (int_div (totalLatency t) (count t)) in
    mkAnalytics (hourlyData ta) (dailyData ta)
                (keepLast 7 (weeklyData ta ++ [dayData]))
                (pathDistribution ta) (errorTypes ta) (latencyDistribution ta).

Definition GetTrafficData (ta : TrafficAnalytics) (timeRange : string)
    : list TrafficData :=
  if String.eqb timeRange "hourly" then hourlyData ta
  else if String.eqb timeRange "daily" then dailyData ta
  else if String.eqb timeRange "weekly" then weeklyData ta
  else hourlyData ta.

(** One tick of [startDataCollection]. *)
Inductive tick : TrafficAnalytics -> TrafficAnalytics -> Prop :=
| tick_minute ta data m : tick ta (collectData ta data m)
| tick_hour ta stamp : tick ta (aggregateHourlyData ta stamp)
| tick_day ta stamp : tick ta (aggregateDailyData ta stamp).

Inductive ticked : TrafficAnalytics -> Prop :=
| ticked_new : ticked NewTrafficAnalytics
| ticked_more ta ta' : ticked ta -> tick ta ta' -> ticked ta'.

(** The minute ticks alone: one batch and one set of draws for each. *)
Fixpoint collectAll (ta : TrafficAnalytics)
    (batches : list (list TrafficData * MockData)) : TrafficAnalytics :=
  match batches with
  | [] => ta
  | (data, m) :: rest => collectAll (collectData ta data m) rest
  end.

(** The newest point of each batch that has one. *)
Definition latestPoints (batches : list (list TrafficData * MockData))
    : list TrafficData :=
  omap (fun b => last (fst b)) batches.

Definition noMock : MockData := mkMock ∅ ∅ ∅.

End TrafficBuffers.

(** ** Backend services and their health (proxy.go) *)

Module Services.
Import GoInt RouteTable.

Record Service := mkService {
  Name : string;
  URL : string;
  Status : string;
  LastCheck : Z
}.

Section Library.

(** [url.Parse] followed by [Hostname()]: [None] when the target does not
    parse. *)
Variable ParseHostname : string -> option string.

(** The service name a route contributes, if any. *)
Definition hostOf (route : Route) : option string :=
  if String.eqb (Target route) "" then None
  else ParseHostname (Target route).

(** One round of the loop of [initServices]. *)
Definition addService (services : gmap string Service) (route : Route)
    : gmap string Service :=
  match hostOf route with
  | None => services
  | Some serviceName =>
      match services !! serviceName with
      | Some _ => services
      | None =>
          <[serviceName := mkService serviceName (Target route) "unknown" 0]>
            services
      end
  end.

(** [initServices] on the routes [p.config.GetRoutes()] returns. *)
Definition initServices (services : gmap string Service)
    (routes : list Route) : gmap string Service :=
  fold_left addService routes services.

End Library.

(** What the probe of one service meets, in the order the code tests it:
    the stored URL does not parse, the request cannot be built, the call
    fails, the body cannot be read, or an answer with a status code. *)
Inductive Probe :=
| ParseFailed
| RequestFailed
| CallFailed
| ReadFailed
| Answer (status : Z).

Definition statusOf (probe : Probe) : string :=
  match probe with
  | ParseFailed | RequestFailed | CallFailed => "error"
  | ReadFailed => "warning"
  | Answer status =>
      if (status <? 200) || (300 <=? status) then "warning" else "healthy"
  end.

(** [checkServiceHealth]; [now] is the clock reading it stores. *)
Definition checkServiceHealth (svc : Service) (now : Z) (probe : Probe)
    : Service :=
  mkService (Name svc) (URL svc) (statusOf probe) now.

(** The first loop of [CheckHealth]: every service of the map is probed
    once; [clock] and [probes] give the reading and the outcome for the
    service stored under each name. *)
Definition CheckHealth (services : gmap string Service)
    (clock : string -> Z) (probes : string -> Probe) : gmap string Service :=
  map_imap (fun name svc =>
              Some (checkServiceHealth svc (clock name) (probes name)))
           services.

End Services.

(** ** The handlers of the admin API (cmd/gateway/main.go) *)

Module Admin.
Import GoInt RouteTable RouteCRUD Gateway.

Definition StatusOK : Z := 200.
Definition StatusCreated : Z := 201.
Definition StatusNoContent : Z := 204.
Definition StatusBadRequest : Z := 400.
Definition StatusMethodNotAllowed : Z := 405.

(** What a handler writes: the text of [http.Error], the value given to
    [writeJSON], or nothing. *)
Inductive Body :=
| Message (text : string)
| RouteJSON (route : Route)
| RoutesJSON (routes : list Route)
| ConfigJSON (c : Config)
| NoBody.

Record Reply := mkReply {
  status : Z;
  body : Body
}.

(** [handleRoutes]. [decoded] is what [json.NewDecoder(r.Body).Decode]
    gives, the error text on the left; [saveErr] is the error of
    [config.save()], [None] for nil. *)
Definition handleRoutes (c : Config) (method : string)
    (decoded : string + Route) (saveErr : option string) : Reply * Config :=
  if String.eqb method "GET" then (mkReply StatusOK (RoutesJSON (GetRoutes c)), c)
  else if String.eqb method "POST" then
    match decoded with
    | inl err =>
        (mkReply StatusBadRequest (Message ("Invalid request body: " +:+ err)), c)
    | inr route =>
        match validateRoute route with
        | Some e => (mkReply StatusBadRequest (Message e), c)
        | None =>
            let (id, c') := AddRoute c route in
            match saveErr with
            | Some e =>
                (mkReply StatusInternalServerError
                         (Message ("Failed to save config: " +:+ e)), c')
            | None => (mkReply StatusCreated (RouteJSON (withID route id)), c')
            end
        end
    end
  else (mkReply StatusMethodNotAllowed (Message "Method not allowed"), c).

(** [handleConfig]. The decoder fills the exported fields only, so the
    configuration assigned to [*config] has the zero [nextRouteID]; the
    routes are the ones [getRoutes] returns. *)
Definition handleConfig (c : Config) (method : string)
    (decoded : string + Config) (saveErr : option string) : Reply * Config :=
  if String.eqb method "GET" then
    (mkReply StatusOK (ConfigJSON (withRoutes c [] (nextRouteID c))), c)
  else if String.eqb method "PUT" then
    match decoded with
    | inl err =>
        (mkReply StatusBadRequest (Message ("Invalid request body: " +:+ err)), c)
    | inr newConfig =>
        let newConfig := withRoutes newConfig (GetRoutes c) 0 in
        match saveErr with
        | Some e =>
            (mkReply StatusInternalServerError
                     (Message ("Failed to save config: " +:+ e)), newConfig)
        | None => (mkReply StatusOK (ConfigJSON newConfig), newConfig)
        end
    end
  else (mkReply StatusMethodNotAllowed (Message "Method not allowed"), c).

(** Routes added one after the other. *)
Definition addAll (c : Config) (routes : list Route) : Config :=
  fold_left (fun c route => snd (AddRoute c route)) routes c.

Section Library.

(** [strconv.Atoi]; [None] for its error. *)
Variable Atoi : string -> option Z.

(** [handleRoute] on the request's method and URL path. *)
Definition handleRoute (c : Config) (method urlPath : string)
    (decoded : string + Route) (saveErr : option string) : Reply * Config :=
  let parts := Auth.Split "/" urlPath in
  if (length parts <? 4)%nat
  then (mkReply StatusBadRequest (Message "Invalid route ID"), c)
  else
    match Atoi (nth 3 parts "") with
    | None => (mkReply StatusBadRequest (Message "Invalid route ID"), c)
    | Some id =>
        if String.eqb method "GET" then
          match GetRoute c id with
          | None => (mkReply StatusNotFound (Message "Route not found"), c)
          | Some route => (mkReply StatusOK (RouteJSON route), c)
          end
        else if String.eqb method "PUT" then
          match decoded with
          | inl err =>
              (mkReply StatusBadRequest
                       (Message ("Invalid request body: " +:+ err)), c)
          | inr route =>
              let route := withID route id in
              match validateRoute route with
              | Some e => (mkReply StatusBadRequest (Message e), c)
              | None =>
                  let (ok, c') := UpdateRoute c route in
                  if negb ok
                  then (mkReply StatusNotFound (Message "Route not found"), c')
                  else
                    match saveErr with
                    | Some e =>
                        (mkReply StatusInternalServerError
                                 (Message ("Failed to save config: " +:+ e)), c')
                    | None => (mkReply StatusOK (RouteJSON route), c')
                    end
              end
          end
        else if String.eqb method "DELETE" then
          let (ok, c') := DeleteRoute c id in
          if negb ok
          then (mkReply StatusNotFound (Message "Route not found"), c')
          else
            match saveErr with
            | Some e =>
                (mkReply StatusInternalServerError
                         (Message ("Failed to save config: " +:+ e)), c')
            | None => (mkReply StatusNoContent NoBody, c')
            end
        else (mkReply StatusMethodNotAllowed (Message "Method not allowed"), c)
    end.

(** The id the handler reads in the fourth part of the path. *)
Definition requestedID (urlPath : string) : option Z :=
  let parts := Auth.Split "/" urlPath in
  if (length parts <? 4)%nat then None else Atoi (nth 3 parts "").

End Library.

(** Decimal digits to a number, for the examples; the statements about
    [handleRoute] hold for every function in the place of
    [strconv.Atoi]. *)
Fixpoint digits (s : string) (acc : Z) : option Z :=
  match s with
  | EmptyString => Some acc
  | String ch rest =>
      let n := Z.of_nat (nat_of_ascii ch) in
      if (48 <=? n) && (n <=? 57) then digits rest (10 * acc + (n - 48))
      else None
  end.

Definition decimal (s : string) : option Z :=
  match s with
  | EmptyString => None
  | _ => digits s 0
  end.

End Admin.

(** * Properties *)

Module RouteTableFacts.
Import RouteTable.

Lemma append_nil_l (b : string) : "" +:+ b = b.
Proof. reflexivity. Qed.

Lemma append_cons (x : ascii) (a b : string) :
  String x a +:+ b = String x (a +:+ b).
Proof. reflexivity. Qed.

Lemma append_assoc (a b c : string) : (a +:+ b) +:+ c = a +:+ (b +:+ c).
Proof.
  induction a as [|x a IH]; [reflexivity |].
  rewrite !append_cons. by rewrite IH.
Qed.

Lemma HasPrefix_spec s p :
  HasPrefix s p = true <-> exists rest, s = p +:+ rest.
Proof.
  revert s. induction p as [|c p IH]; intros s; simpl.
  - split; [intros _; by exists s | done].
  - destruct s as [|d s].
    + split; [done | intros [rest H]; rewrite append_cons in H; discriminate].
    + destruct (Ascii.eqb_spec c d) as [->|Hne].
      * rewrite IH. split; intros [rest H]; exists rest.
        -- by rewrite H.
        -- rewrite append_cons in H. by injection H.
      * split; [done |].
        intros [rest H]. rewrite append_cons in H. injection H. congruence.
Qed.

Lemma pathMatches_spec requestPath routePath :
  pathMatches requestPath routePath = true <->
  path_matches_spec requestPath routePath.
Proof.
  unfold pathMatches, path_matches_spec.
  destruct (String.eqb_spec requestPath routePath) as [->|Hne].
  - split; [by left | done].
  - destruct (HasPrefix requestPath (routePath +:+ "/")) eqn:Hp.
    + apply HasPrefix_spec in Hp as [rest ->].
      split; [intros _; right; exists rest; by rewrite append_assoc | done].
    + split; [done |].
      intros [Heq | [rest Hrest]]; [done |].
      assert (HasPrefix requestPath (routePath +:+ "/") = true) as Ht.
      { apply HasPrefix_spec. exists rest. by rewrite append_assoc. }
      congruence.
Qed.

Lemma methodAllowed_spec methods method :
  methodAllowed methods method = true <->
  In method methods \/ In "*" methods.
Proof.
  induction methods as [|m ms IH]; simpl.
  - split; [done | intros [[]|[]]].
  - destruct (String.eqb_spec m "*") as [->|Hstar]; simpl.
    + split; [intros _; right; by left | done].
    + destruct (String.eqb_spec m method) as [->|Hm].
      * split; [intros _; left; by left | done].
      * rewrite IH. split.
        -- intros [H|H]; [left | right]; by right.
        -- intros [[H|H]|[H|H]]; try congruence; [by left | by right].
Qed.

Lemma route_matchesb_spec path method r :
  route_matchesb path method r = true <-> route_matches path method r.
Proof.
  unfold route_matchesb, route_matches.
  rewrite !andb_true_iff, pathMatches_spec, methodAllowed_spec. tauto.
Qed.

Lemma findIn_step route rest path method :
  findIn (route :: rest) path method =
  if route_matchesb path method route then Some route
  else findIn rest path method.
Proof.
  simpl. unfold route_matchesb.
  destruct (Active route), (pathMatches path (Path route)),
    (methodAllowed (Methods route) method); reflexivity.
Qed.

Lemma findIn_Some routes path method r :
  findIn routes path method = Some r <->
  exists pre post,
    routes = pre ++ r :: post /\
    route_matches path method r /\
    Forall (fun r' => ~ route_matches path method r') pre.
Proof.
  induction routes as [|route rest IH].
  - simpl. split; [done |].
    intros (pre & post & H & _). by destruct pre.
  - rewrite findIn_step.
    destruct (route_matchesb path method route) eqn:Hm.
    + apply route_matchesb_spec in Hm. split.
      * intros [= <-]. exists [], rest. split; [done | split; [done | constructor]].
      * intros (pre & post & Heq & Hr & Hpre).
        destruct pre as [|x pre]; simpl in Heq.
        -- by injection Heq as ->.
        -- injection Heq as -> _. by apply Forall_cons in Hpre as [? _].
    + assert (~ route_matches path method route) as Hn.
      { rewrite <- route_matchesb_spec. congruence. }
      rewrite IH. split.
      * intros (pre & post & -> & Hr & Hpre).
        exists (route :: pre), post. split; [done | split; [done | by constructor]].
      * intros (pre & post & Heq & Hr & Hpre).
        destruct pre as [|x pre]; simpl in Heq.
        -- injection Heq as -> _. done.
        -- injection Heq as -> ->. apply Forall_cons in Hpre as [_ Hpre].
           by exists pre, post.
Qed.

Lemma findIn_None routes path method :
  findIn routes path method = None <->
  Forall (fun r' => ~ route_matches path method r') routes.
Proof.
  induction routes as [|route rest IH].
  - simpl. split; [by constructor | done].
  - rewrite findIn_step.
    destruct (route_matchesb path method route) eqn:Hm.
    + apply route_matchesb_spec in Hm. split; [done |].
      intros H. by apply Forall_cons in H as [? _].
    + assert (~ route_matches path method route) as Hn.
      { rewrite <- route_matchesb_spec. congruence. }
      rewrite IH. split; [by constructor |].
      intros H. by apply Forall_cons in H as [_ ?].
Qed.

(** C6. [FindRouteByPath] returns the first route, in registration order,
    that is active, whose path equals the request path or is followed in
    it by ["/"], and whose methods contain the request method or ["*"];
    it reports not-found exactly when no route is such.  With the route
    [/api/users] for [GET] only, [GET /api/users/42] finds it and
    [DELETE /api/users] finds nothing. *)
Theorem FindRouteByPath_first_match (c : Config) (path method : string) :
  (forall r,
      FindRouteByPath c path method = Some r <->
      exists pre post,
        Routes c = pre ++ r :: post /\
        route_matches path method r /\
        Forall (fun r' => ~ route_matches path method r') pre) /\
  (FindRouteByPath c path method = None <->
   Forall (fun r' => ~ route_matches path method r') (Routes c)) /\
  (Routes c = [usersRoute] ->
   FindRouteByPath c "/api/users/42" "GET" = Some usersRoute /\
   FindRouteByPath c "/api/users" "DELETE" = None).
Proof.
  unfold FindRouteByPath. split; [| split].
  - intros r. apply findIn_Some.
  - apply findIn_None.
  - intros ->. split; reflexivity.
Qed.

End RouteTableFacts.

Module RateLimiterFacts.
Import GoInt RouteTable RateLimiter.
Local Open Scope Q_scope.

Lemma Qltb_lt a b : Qltb a b = true <-> a < b.
Proof.
  unfold Qltb. rewrite negb_true_iff, <- not_true_iff_false, Qle_bool_iff.
  split; [apply Qnot_le_lt | apply Qlt_not_le].
Qed.

Lemma Qltb_ge a b : Qltb a b = false <-> b <= a.
Proof.
  unfold Qltb. rewrite negb_false_iff. apply Qle_bool_iff.
Qed.

Lemma pow63_pos : (0 < 2 ^ 63)%Z.
Proof. reflexivity. Qed.

Lemma Time_Sub_nonneg t u : (u <= t)%Z -> (0 <= Time_Sub t u)%Z.
Proof.
  intros H. unfold Time_Sub, minDuration, maxDuration.
  pose proof pow63_pos. lia.
Qed.

Lemma Time_Sub_same t : Time_Sub t t = 0%Z.
Proof.
  unfold Time_Sub, minDuration, maxDuration.
  pose proof pow63_pos. lia.
Qed.

Lemma Duration_Seconds_nonneg d : (0 <= d)%Z -> 0 <= Duration_Seconds d.
Proof. intros H. unfold Duration_Seconds, Qle. simpl. lia. Qed.

Lemma Duration_Seconds_0 : Duration_Seconds 0 == 0.
Proof. reflexivity. Qed.

Lemma elapsed_nonneg t u :
  (u <= t)%Z -> 0 <= Duration_Seconds (Time_Sub t u).
Proof. intros H. by apply Duration_Seconds_nonneg, Time_Sub_nonneg. Qed.



Lemma getBucket_eq rl path rateLimit created :
  getBucket rl path rateLimit created =
  match buckets rl !! path with
  | Some b => (b, rl)
  | None =>
      let b := newBucket rateLimit created in
      (b, mkLimiter (config rl) (<[path := b]> (buckets rl)))
  end.
Proof. unfold getBucket. by destruct (buckets rl !! path). Qed.

(** One call of [Allow] with the limiter switched on, in terms of the
    bucket it works on. *)
Lemma Allow_enabled rl path rateLimit created now :
  EnableRateLimit (config rl) = true ->
  Allow rl path rateLimit created now =
  let b := bucketBefore rl path rateLimit created in
  (fst (TakeToken b now),
   mkLimiter (config rl) (<[path := snd (TakeToken b now)]> (buckets rl))).
Proof.
  intros Hen. unfold Allow, bucketBefore, effectiveLimit.
  rewrite Hen, getBucket_eq. simpl.
  destruct (buckets rl !! path) as [b|] eqn:Hb; simpl.
  - by destruct (TakeToken b now).
  - destruct (TakeToken _ now) eqn:Ht. simpl.
    by rewrite insert_insert_eq.
Qed.

Lemma Allow_disabled rl path rateLimit created now :
  EnableRateLimit (config rl) = false ->
  Allow rl path rateLimit created now = (true, rl).
Proof. intros Hen. unfold Allow. by rewrite Hen. Qed.


Lemma TakeToken_refilled b now :
  let r := refilled b now in
  (r < 1 /\ fst (TakeToken b now) = false /\ tokens (snd (TakeToken b now)) == r) \/
  (1 <= r /\ fst (TakeToken b now) = true /\ tokens (snd (TakeToken b now)) == r - 1).
Proof.
  unfold refilled, TakeToken.
  set (t1 := tokens b + _ * _).
  assert ((if Qltb (capacity b) t1 then capacity b else t1) == Qmin (capacity b) t1)
    as Hmin.
  { destruct (Qltb (capacity b) t1) eqn:Hc.
    - apply Qltb_lt in Hc. symmetry. apply Q.min_l. by apply Qlt_le_weak.
    - apply Qltb_ge in Hc. symmetry. by apply Q.min_r. }
  set (t2 := if Qltb (capacity b) t1 then capacity b else t1) in *.
  destruct (Qltb t2 1) eqn:Hlt; simpl.
  - left. apply Qltb_lt in Hlt. rewrite <- Hmin. by repeat split.
  - right. apply Qltb_ge in Hlt. rewrite <- Hmin. by repeat split.
Qed.

Lemma TakeToken_frame b now :
  capacity (snd (TakeToken b now)) = capacity b /\
  refillRate (snd (TakeToken b now)) = refillRate b /\
  lastRefillTime (snd (TakeToken b now)) = now.
Proof. unfold TakeToken. by destruct (Qltb _ 1). Qed.

Lemma Allow_lookup rl path rateLimit created now :
  EnableRateLimit (config rl) = true ->
  buckets (snd (Allow rl path rateLimit created now)) !! path =
  Some (snd (TakeToken (bucketBefore rl path rateLimit created) now)).
Proof.
  intros Hen. rewrite Allow_enabled by done. simpl.
  apply lookup_insert_eq.
Qed.

Lemma Allow_lookup_ne rl path path' rateLimit created now :
  path' <> path ->
  buckets (snd (Allow rl path rateLimit created now)) !! path' =
  buckets rl !! path'.
Proof.
  intros Hne. destruct (EnableRateLimit (config rl)) eqn:Hen.
  - rewrite Allow_enabled by done. simpl. by apply lookup_insert_ne.
  - by rewrite Allow_disabled.
Qed.





Lemma TakeToken_ok now b :
  (lastRefillTime b <= now)%Z ->
  bucket_ok b -> bucket_ok (snd (TakeToken b now)).
Proof.
  intros Ht (Hlo & Hhi & Hrate).
  pose proof (elapsed_nonneg now (lastRefillTime b) Ht) as He.
  pose proof (Qmult_le_0_compat _ _ He Hrate) as Hadd.
  unfold bucket_ok, TakeToken.
  set (x := Duration_Seconds _ * _) in *. clearbody x.
  destruct (Qltb (capacity b) (tokens b + x)) eqn:Hcap.
  - apply Qltb_lt in Hcap.
    destruct (Qltb (capacity b) 1) eqn:Hone; simpl.
    + repeat split; (done || lra).
    + apply Qltb_ge in Hone. repeat split; (done || lra).
  - apply Qltb_ge in Hcap.
    destruct (Qltb (tokens b + x) 1) eqn:Hone; simpl.
    + repeat split; (done || lra).
    + apply Qltb_ge in Hone. repeat split; (done || lra).
Qed.




(** A single [TakeToken] on a bucket that satisfies the bound keeps it. *)
Lemma TakeToken_within_capacity b now :
  (lastRefillTime b <= now)%Z ->
  0 <= refillRate b ->
  0 <= tokens b /\ tokens b <= capacity b ->
  0 <= tokens (snd (TakeToken b now)) /\
  tokens (snd (TakeToken b now)) <= capacity (snd (TakeToken b now)).
Proof.
  intros Hl Hr [H1 H2].
  assert (bucket_ok b) as Hok by (by repeat split).
  destruct (TakeToken_ok now b Hl Hok) as (? & ? & _).
  by split.
Qed.



(** C10. The first enabled [Allow] on a path creates its bucket with the
    capacity of that call's limit (the default when the limit is not
    positive) and a refill rate of a sixtieth of it; a call on a path that
    has a bucket keeps that bucket's capacity and refill rate whatever
    limit it is given; buckets of other paths are not touched. *)
Theorem bucket_parameters_fixed rl path rateLimit created now :
  (EnableRateLimit (config rl) = true ->
   buckets rl !! path = None ->
   exists b',
     buckets (snd (Allow rl path rateLimit created now)) !! path = Some b' /\
     capacity b' = float64_of_int (effectiveLimit (config rl) rateLimit) /\
     refillRate b' = capacity b' / 60) /\
  (forall b,
     buckets rl !! path = Some b ->
     exists b',
       buckets (snd (Allow rl path rateLimit created now)) !! path = Some b' /\
       capacity b' = capacity b /\
       refillRate b' = refillRate b) /\
  (forall path',
     path' <> path ->
     buckets (snd (Allow rl path rateLimit created now)) !! path' =
     buckets rl !! path').
Proof.
  split; [| split].
  - intros Hen Hnone. eexists. split; [by apply Allow_lookup |].
    destruct (TakeToken_frame (bucketBefore rl path rateLimit created) now)
      as (-> & -> & _).
    unfold bucketBefore. rewrite Hnone. done.
  - intros b Hb. destruct (EnableRateLimit (config rl)) eqn:Hen.
    + eexists. split; [by apply Allow_lookup |].
      destruct (TakeToken_frame (bucketBefore rl path rateLimit created) now)
        as (-> & -> & _).
      unfold bucketBefore. by rewrite Hb.
    + exists b. by rewrite Allow_disabled.
  - intros path' Hne. by apply Allow_lookup_ne.
Qed.

Lemma bucket_parameters_fixed_witness :
  (exists b',
     buckets (snd (Allow (NewRateLimiter defaultConfig) "/api/users" 0 0 0))
       !! "/api/users" = Some b' /\
     capacity b' = 100 /\ refillRate b' = capacity b' / 60) /\
  (exists b',
     buckets (snd (Allow twoCalls "/api/users" 500 7 30000000000))
       !! "/api/users" = Some b' /\
     capacity b' = 2 /\ refillRate b' = 2 / 60).
Proof.
  split.
  - destruct (bucket_parameters_fixed (NewRateLimiter defaultConfig)
                "/api/users" 0 0 0) as (H & _ & _).
    exact (H eq_refl eq_refl).
  - destruct (bucket_parameters_fixed twoCalls "/api/users" 500 7 30000000000)
      as (_ & H & _).
    destruct (H _ ltac:(vm_compute; reflexivity)) as (b' & ? & ? & ?).
    exists b'. done.
Defined.



End RateLimiterFacts.

Module ProxyStatsFacts.
Import GoInt RouteTable ProxyStats.
Local Open Scope Q_scope.

Lemma wrap64_small x : in_int64 x -> wrap64 x = x.
Proof.
  unfold in_int64, wrap64, wrap. intros H.
  change (2 ^ (64 - 1))%Z with (2 ^ 63)%Z.
  change (2 ^ 64)%Z with (2 * 2 ^ 63)%Z.
  pose proof RateLimiterFacts.pow63_pos.
  rewrite Z.mod_small; lia.
Qed.

Lemma inject_Z_nonzero n : (0 < n)%Z -> ~ inject_Z n == 0.
Proof. intros H. unfold Qeq. simpl. lia. Qed.

Lemma Qsum_snoc l x : Qsum (l ++ [x]) == Qsum l + x.
Proof.
  induction l as [|y l IH]; simpl.
  - ring.
  - rewrite IH. ring.
Qed.

Lemma updateStats_RouteStats p path latency isError now :
  exists rs,
    RouteStats (stats (updateStats p path latency isError now)) =
    <[path := rs]> (RouteStats (stats p)) /\
    let old := match RouteStats (stats p) !! path with
               | Some rs => rs
               | None => mkRouteStat 0 0 0
               end in
    Requests rs = wrap64 (Requests old + 1) /\
    Errors rs = (if isError then wrap64 (Errors old + 1) else Errors old) /\
    AvgLatency rs =
      (AvgLatency old * float64_of_int (wrap64 (wrap64 (Requests old + 1) - 1))
       + Duration_Seconds latency) / float64_of_int (wrap64 (Requests old + 1)).
Proof. eexists. split; [reflexivity |]. simpl. done. Qed.

Lemma tracks_same path p ls latency isError now :
  tracks path p ls ->
  (Z.of_nat (length ls) + 1 < 2 ^ 63)%Z ->
  tracks path (updateStats p path latency isError now)
         (ls ++ [Duration_Seconds latency]).
Proof.
  intros Htr Hbound.
  destruct (updateStats_RouteStats p path latency isError now)
    as (rs & Hmap & Hreq & _ & Havg).
  unfold tracks in *. rewrite Hmap, lookup_insert_eq.
  set (old := match RouteStats (stats p) !! path with
              | Some rs => rs | None => mkRouteStat 0 0 0 end) in *.
  set (n := Z.of_nat (length ls)) in *.
  assert (Requests old = n /\ AvgLatency old * inject_Z n == Qsum ls)
    as [Hn Hsum].
  { unfold old. destruct (RouteStats (stats p) !! path) as [rs0|].
    - destruct Htr as (_ & ? & ?). done.
    - subst ls. simpl. split; [done | reflexivity]. }
  assert (0 <= n)%Z as Hn0 by (unfold n; lia).
  pose proof RateLimiterFacts.pow63_pos as Hp.
  assert (wrap64 (Requests old + 1) = (n + 1)%Z) as Hw1.
  { rewrite Hn. apply wrap64_small. unfold in_int64. lia. }
  assert (wrap64 (n + 1 - 1) = n) as Hw2.
  { replace (n + 1 - 1)%Z with n by lia.
    apply wrap64_small. unfold in_int64. lia. }
  rewrite Hw1 in Hreq, Havg. rewrite Hw2 in Havg.
  assert (Z.of_nat (length (ls ++ [Duration_Seconds latency])) = (n + 1)%Z)
    as Hlen.
  { rewrite length_app. simpl. unfold n. lia. }
  split; [by destruct ls |].
  rewrite Hlen. split; [done |].
  rewrite Qsum_snoc, Havg, <- Hsum. unfold float64_of_int.
  field. apply inject_Z_nonzero. lia.
Qed.

Lemma tracks_other path path' p ls latency isError now :
  path' <> path ->
  tracks path p ls ->
  tracks path (updateStats p path' latency isError now) ls.
Proof.
  intros Hne Htr.
  destruct (updateStats_RouteStats p path' latency isError now)
    as (rs & Hmap & _).
  unfold tracks in *. rewrite Hmap. by rewrite lookup_insert_ne.
Qed.

Lemma tracks_recordAll path calls :
  forall p pre,
    tracks path p pre ->
    (Z.of_nat (length (pre ++ latenciesOf path calls)) < 2 ^ 63)%Z ->
    tracks path (recordAll p calls) (pre ++ latenciesOf path calls).
Proof.
  induction calls as [|c cs IH]; intros p pre Htr Hbound; simpl in *.
  - by rewrite app_nil_r.
  - destruct (String.eqb_spec (s_path c) path) as [Heq|Hne].
    + rewrite length_app in Hbound. simpl in Hbound.
      replace (pre ++ Duration_Seconds (s_latency c) :: latenciesOf path cs)
        with ((pre ++ [Duration_Seconds (s_latency c)]) ++ latenciesOf path cs)
        by (by rewrite <- app_assoc).
      apply IH.
      * rewrite Heq. apply tracks_same; [done | lia].
      * rewrite !length_app. simpl. lia.
    + apply IH; [| done]. by apply tracks_other.
Qed.

(** C9. Starting from a route without statistics, after the calls of
    [updateStats] (at least one for the route, fewer than [2^63]) the
    route's [AvgLatency], maintained by
    [avg' = (avg * (n - 1) + latency) / n], is the arithmetic mean of the
    latencies recorded for it, and [Requests] is their number.  The
    arithmetic is exact: [float64] is embedded as [Q]. *)
Theorem AvgLatency_is_mean p path calls :
  RouteStats (stats p) !! path = None ->
  latenciesOf path calls <> [] ->
  (Z.of_nat (length (latenciesOf path calls)) < 2 ^ 63)%Z ->
  exists rs,
    RouteStats (stats (recordAll p calls)) !! path = Some rs /\
    Requests rs = Z.of_nat (length (latenciesOf path calls)) /\
    AvgLatency rs == mean (latenciesOf path calls).
Proof.
  intros Hnone Hne Hbound.
  pose proof (tracks_recordAll path calls p []) as Htr.
  simpl in Htr. unfold tracks at 1 in Htr. rewrite Hnone in Htr.
  specialize (Htr eq_refl Hbound). unfold tracks in Htr.
  destruct (RouteStats (stats (recordAll p calls)) !! path) as [rs|]; [| done].
  destruct Htr as (_ & Hreq & Hsum).
  exists rs. split; [done |]. split; [done |].
  unfold mean. rewrite <- Hsum. field.
  apply inject_Z_nonzero.
  destruct (latenciesOf path calls); [done | simpl; lia].
Qed.

Lemma AvgLatency_is_mean_witness :
  exists rs,
    RouteStats (stats (recordAll (NewProxy RateLimiter.defaultConfig 0) threeCalls))
      !! "/api/users" = Some rs /\
    Requests rs = 3%Z /\
    AvgLatency rs == 3 # 10.
Proof.
  destruct (AvgLatency_is_mean (NewProxy RateLimiter.defaultConfig 0)
              "/api/users" threeCalls) as (rs & H1 & H2 & H3).
  - reflexivity.
  - discriminate.
  - reflexivity.
  - exists rs. split; [exact H1 |]. split; [exact H2 |].
    rewrite H3. reflexivity.
Defined.

(** [updateStats] touches [ErrorRate] only for an error, and then stores
    the ratio of the route just updated. *)
Lemma updateStats_ErrorRate p path latency isError now :
  ErrorRate (stats (updateStats p path latency isError now)) =
  if isError then
    match RouteStats (stats (updateStats p path latency isError now)) !! path with
    | Some rs => float64_of_int (Errors rs) / float64_of_int (Requests rs)
    | None => 0
    end
  else ErrorRate (stats p).
Proof.
  destruct isError; [| reflexivity].
  unfold updateStats. simpl. by rewrite lookup_insert_eq.
Qed.

(** C3 (evaluation). One failed and one successful request on the same
    route, or a success on one route and a failure on another: one error in
    two requests overall, and the snapshot reports an error rate of 1. *)
Theorem ErrorRate_is_last_failing_route_ratio :
  let st1 := GetStats (recordAll (NewProxy RateLimiter.defaultConfig 0)
                                 errorThenSuccess) 3000000000 in
  let st2 := GetStats (recordAll (NewProxy RateLimiter.defaultConfig 0)
                                 successThenOtherError) 3000000000 in
  (totalRequests st1 = 2%Z /\ totalErrors st1 = 1%Z /\ ErrorRate st1 == 1 /\
   ~ ErrorRate st1 == inject_Z (totalErrors st1) / inject_Z (totalRequests st1)) /\
  (totalRequests st2 = 2%Z /\ totalErrors st2 = 1%Z /\ ErrorRate st2 == 1 /\
   ~ ErrorRate st2 == inject_Z (totalErrors st2) / inject_Z (totalRequests st2)).
Proof.
  cbv zeta. split.
  - split; [by vm_compute |]. split; [by vm_compute |].
    split; [by vm_compute |]. by vm_compute.
  - split; [by vm_compute |]. split; [by vm_compute |].
    split; [by vm_compute |]. by vm_compute.
Qed.

Lemma wrap_succ_pred w a :
  (0 < w)%Z -> wrap w (wrap w (a + 1) - 1) = wrap w a.
Proof.
  intros Hw. unfold wrap.
  set (h := (2 ^ (w - 1))%Z). set (m := (2 ^ w)%Z).
  assert (0 < m)%Z as Hm by (apply Z.pow_pos_nonneg; lia).
  replace ((a + 1 + h) mod m - h - 1 + h)%Z
    with ((a + 1 + h) mod m - 1)%Z by lia.
  rewrite Zminus_mod_idemp_l. f_equal. f_equal. lia.
Qed.

(** How many times one call of [ProxyRequest] runs [updateStats], read off
    the total request counter. *)
Lemma ProxyRequest_TotalRequests p route x :
  TotalRequests (stats (snd (ProxyRequest p route x))) =
  match parseError x, upstream x with
  | Some _, _ => TotalRequests (stats p)
  | None, Responded _ => wrap64 (TotalRequests (stats p) + 1)
  | None, Failed _ => wrap64 (wrap64 (TotalRequests (stats p) + 1) + 1)
  end.
Proof.
  unfold ProxyRequest, ServeHTTP, errorHandler.
  destruct (parseError x); simpl; [done |].
  destruct (upstream x) as [status|msg]; simpl; [done |].
  by destruct (String.eqb msg _).
Qed.

(** C1 (evaluation). A request whose upstream times out, and one whose
    upstream refuses the connection, on a fresh proxy: the client gets 504
    resp. 503, the in-flight counter is back at 0, and the request has been
    recorded twice, once as an error and once as a success. *)
Theorem ProxyRequest_failure_recorded_twice :
  let p0 := NewProxy RateLimiter.defaultConfig 0 in
  let r1 := ProxyRequest p0 usersRoute timedOut in
  let r2 := ProxyRequest p0 usersRoute refused in
  (r1.1 = Served 504 /\
   activeRequests r1.2 = 0%Z /\
   TotalRequests (stats r1.2) = 2%Z /\
   (exists avg, RouteStats (stats r1.2) !! "/api/users"
                = Some (mkRouteStat 2 1 avg))) /\
  (r2.1 = Served 503 /\
   activeRequests r2.2 = 0%Z /\
   TotalRequests (stats r2.2) = 2%Z /\
   (exists avg, RouteStats (stats r2.2) !! "/api/users"
                = Some (mkRouteStat 2 1 avg))).
Proof.
  cbv zeta. split.
  - split; [by vm_compute |]. split; [by vm_compute |].
    split; [by vm_compute |]. eexists. by vm_compute.
  - split; [by vm_compute |]. split; [by vm_compute |].
    split; [by vm_compute |]. eexists. by vm_compute.
Qed.

(** X1. The in-flight counter after a call of [ProxyRequest] is the counter
    before it, on every exit path: the increment is undone exactly once. *)
Theorem ProxyRequest_counter_restored p route x :
  activeRequests (snd (ProxyRequest p route x)) = wrap32 (activeRequests p).
Proof.
  assert (wrap32 (wrap32 (activeRequests p + 1) - 1) = wrap32 (activeRequests p))
    as Hback by (apply wrap_succ_pred; lia).
  unfold ProxyRequest, ServeHTTP, errorHandler.
  destruct (parseError x); simpl; [done |].
  destruct (upstream x) as [status|msg]; simpl; [done |].
  by destruct (String.eqb msg _).
Qed.

Lemma ratio_nonneg a b : (0 <= a)%Z -> (0 < b)%Z -> 0 <= inject_Z a / inject_Z b.
Proof.
  intros Ha Hb. unfold Qdiv. apply Qmult_le_0_compat.
  - unfold Qle. simpl. lia.
  - apply Qinv_le_0_compat. unfold Qle. simpl. lia.
Qed.

Lemma counters_ok_step n p path latency isError now :
  (0 <= n)%Z -> (n + 1 < 2 ^ 63)%Z ->
  counters_ok n p ->
  counters_ok (n + 1) (updateStats p path latency isError now).
Proof.
  intros Hn0 Hn [Hall Hrate].
  destruct (updateStats_RouteStats p path latency isError now)
    as (rs & Hmap & Hreq & Herr & _).
  set (old := match RouteStats (stats p) !! path with
              | Some rs => rs | None => mkRouteStat 0 0 0 end) in *.
  assert ((0 <= Errors old <= Requests old)%Z /\ (Requests old <= n)%Z)
    as [Hold1 Hold2].
  { unfold old. destruct (RouteStats (stats p) !! path) as [rs0|] eqn:Hl.
    - by apply (Hall path).
    - simpl. lia. }
  pose proof RateLimiterFacts.pow63_pos as Hp.
  rewrite wrap64_small in Hreq by (unfold in_int64; lia).
  assert (Errors rs = if isError then (Errors old + 1)%Z else Errors old) as Herr'.
  { rewrite Herr. destruct isError; [| done].
    apply wrap64_small. unfold in_int64. lia. }
  split.
  - intros path' rs' Hl. rewrite Hmap in Hl.
    destruct (decide (path' = path)) as [->|Hne].
    + rewrite lookup_insert_eq in Hl. injection Hl as <-.
      rewrite Hreq, Herr'. destruct isError; lia.
    + rewrite lookup_insert_ne in Hl by done.
      destruct (Hall path' rs' Hl). lia.
  - rewrite updateStats_ErrorRate. destruct isError; [| done].
    rewrite Hmap, lookup_insert_eq. unfold float64_of_int.
    apply ratio_nonneg; lia.
Qed.

Lemma counters_ok_recordAll calls :
  forall n p,
    (0 <= n)%Z -> (n + Z.of_nat (length calls) < 2 ^ 63)%Z ->
    counters_ok n p ->
    counters_ok (n + Z.of_nat (length calls)) (recordAll p calls).
Proof.
  induction calls as [|c cs IH]; intros n p Hn0 Hn Hok; simpl in *.
  - by rewrite Z.add_0_r.
  - rewrite Nat2Z.inj_succ in *.
    replace (n + Z.succ (Z.of_nat (length cs)))%Z
      with ((n + 1) + Z.of_nat (length cs))%Z by lia.
    apply IH; [lia | lia |].
    apply counters_ok_step; [done | lia | done].
Qed.

(** X2. After any sequence of fewer than [2^63] recordings on a fresh proxy,
    every route has [0 <= Errors <= Requests], no more requests than were
    recorded, and the reported error rate is not negative. *)
Theorem errors_within_requests c t0 calls path rs :
  (Z.of_nat (length calls) < 2 ^ 63)%Z ->
  RouteStats (stats (recordAll (NewProxy c t0) calls)) !! path = Some rs ->
  (0 <= Errors rs <= Requests rs)%Z /\
  (Requests rs <= Z.of_nat (length calls))%Z /\
  0 <= ErrorRate (stats (recordAll (NewProxy c t0) calls)).
Proof.
  intros Hlen Hl.
  destruct (counters_ok_recordAll calls 0 (NewProxy c t0)) as [Hall Hrate];
    [lia | lia | |].
  - split; [| done]. intros path' rs' H. simpl in H.
    by rewrite lookup_empty in H.
  - destruct (Hall path rs Hl) as [H1 H2].
    split; [done | split; [lia | done]].
Qed.

Lemma errors_within_requests_witness :
  exists rs,
    RouteStats (stats (recordAll (NewProxy RateLimiter.defaultConfig 0) mixedCalls))
      !! "/api/users" = Some rs /\
    (0 <= Errors rs <= Requests rs)%Z /\ (Requests rs <= 3)%Z.
Proof.
  eexists. split; [vm_compute; reflexivity |].
  destruct (errors_within_requests RateLimiter.defaultConfig 0 mixedCalls
              "/api/users" _ ltac:(reflexivity) ltac:(vm_compute; reflexivity))
    as (H1 & H2 & _).
  split; [exact H1 | exact H2].
Defined.

End ProxyStatsFacts.

Module AuthFacts.
Import Auth RouteTableFacts.

Lemma Split_nonempty sep s : Split sep s <> [].
Proof.
  destruct s as [|c s]; simpl; [done |].
  destruct (Ascii.eqb c sep); [done |]. by destruct (Split sep s).
Qed.

Lemma Split_one sep s p :
  Split sep s = [p] <-> s = p /\ hasByte sep s = false.
Proof.
  revert p. induction s as [|c s IH]; intros p; simpl.
  - split; [by intros [= <-] | by intros [<- _]].
  - destruct (Ascii.eqb c sep) eqn:Hc.
    + split; [| by intros [_ ?]].
      intros [= <- H]. by destruct (Split_nonempty sep s).
    + destruct (Split sep s) as [|q qs] eqn:Hs;
        [by destruct (Split_nonempty sep s) |].
      split.
      * intros [= <- ->]. destruct (IH q) as [[-> ?] _]; done.
      * intros [<- Hno]. destruct (IH s) as [_ H].
        specialize (H (conj eq_refl Hno)). by injection H as -> ->.
Qed.

Lemma Split_two sep s p0 p1 :
  Split sep s = [p0; p1] <->
  s = p0 +:+ String sep p1 /\ hasByte sep p0 = false /\ hasByte sep p1 = false.
Proof.
  revert p0. induction s as [|c s IH]; intros p0; simpl.
  - split; [done |]. intros [H _]. destruct p0; discriminate.
  - destruct (Ascii.eqb_spec c sep) as [->|Hc].
    + split.
      * intros [= <- H]. apply Split_one in H as [-> ?]. done.
      * intros (H & H0 & H1). destruct p0 as [|d p0].
        -- rewrite append_nil_l in H. injection H as ->.
           f_equal. by apply Split_one.
        -- rewrite append_cons in H. injection H as <- _.
           simpl in H0. by rewrite Ascii.eqb_refl in H0.
    + destruct (Split sep s) as [|q qs] eqn:Hs;
        [by destruct (Split_nonempty sep s) |].
      split.
      * intros [= <- ->]. destruct (IH q) as [(-> & ? & ?) _]; [done |].
        rewrite append_cons. simpl.
        destruct (Ascii.eqb_spec c sep); done.
      * intros (H & H0 & H1). destruct p0 as [|d p0].
        -- rewrite append_nil_l in H. by injection H.
        -- rewrite append_cons in H. injection H as <- ->.
           simpl in H0. destruct (Ascii.eqb c sep); [done |].
           destruct (IH p0) as [_ H]. specialize (H (conj eq_refl (conj H0 H1))).
           by injection H as -> ->.
Qed.

Lemma SplitN2_nonempty sep s : SplitN2 sep s <> [].
Proof.
  destruct s as [|c s]; simpl; [done |].
  destruct (Ascii.eqb c sep); [done |]. by destruct (SplitN2 sep s).
Qed.

Lemma SplitN2_two sep s k v :
  SplitN2 sep s = [k; v] <->
  s = k +:+ String sep v /\ hasByte sep k = false.
Proof.
  revert k. induction s as [|c s IH]; intros k; simpl.
  - split; [done |]. intros [H _]. destruct k; discriminate.
  - destruct (Ascii.eqb_spec c sep) as [->|Hc].
    + split.
      * by intros [= <- <-].
      * intros (H & H0). destruct k as [|d k].
        -- rewrite append_nil_l in H. by injection H as ->.
        -- rewrite append_cons in H. injection H as <- _.
           simpl in H0. by rewrite Ascii.eqb_refl in H0.
    + destruct (SplitN2 sep s) as [|q qs] eqn:Hs;
        [by destruct (SplitN2_nonempty sep s) |].
      split.
      * intros [= <- ->]. destruct (IH q) as [(-> & ?) _]; [done |].
        rewrite append_cons. simpl.
        destruct (Ascii.eqb_spec c sep); done.
      * intros (H & H0). destruct k as [|d k].
        -- rewrite append_nil_l in H. by injection H.
        -- rewrite append_cons in H. injection H as <- ->.
           simpl in H0. destruct (Ascii.eqb c sep); [done |].
           destruct (IH k) as [_ H]. specialize (H (conj eq_refl H0)).
           by injection H as -> ->.
Qed.

Lemma containsKey_In keys apiKey :
  containsKey keys apiKey = true <-> In apiKey keys.
Proof.
  induction keys as [|key rest IH]; simpl; [done |].
  destruct (String.eqb_spec key apiKey) as [->|Hne].
  - split; [by left | done].
  - rewrite IH. split; [by right | by intros [|]].
Qed.

Lemma append_sep_nonempty p c q : p +:+ String c q <> "".
Proof. by destruct p. Qed.

Section Libraries.
Variable ToLower : string -> string.
Variable DecodeString : string -> option string.
Variable Sum256Hex : string -> string.

Local Abbreviation Authenticate := (Authenticate ToLower DecodeString Sum256Hex).
Local Abbreviation basic_credentials := (basic_credentials ToLower DecodeString).
Local Abbreviation accepted := (accepted ToLower DecodeString Sum256Hex).

Lemma basic_credentials_functional h key secret key' secret' :
  basic_credentials h key secret ->
  basic_credentials h key' secret' ->
  key = key' /\ secret = secret'.
Proof.
  intros (s & p & Hh & Hs & Hp & _ & Hd & Hk)
         (s' & p' & Hh' & Hs' & Hp' & _ & Hd' & Hk').
  assert (Split " " h = [s; p]) as H1 by (by apply Split_two).
  assert (Split " " h = [s'; p']) as H2 by (by apply Split_two).
  rewrite H1 in H2. injection H2 as <- <-.
  rewrite Hd in Hd'. injection Hd' as Heq.
  assert (SplitN2 ":" (key +:+ ":" +:+ secret) = [key; secret]) as H3
    by (by apply SplitN2_two).
  assert (SplitN2 ":" (key +:+ ":" +:+ secret) = [key'; secret']) as H4
    by (by apply SplitN2_two).
  rewrite H3 in H4. by injection H4.
Qed.

Lemma Authenticate_accepted a h routeID now key cred :
  accepted a h routeID key cred ->
  Authenticate a h routeID now =
  (true, mkAuth (<[key := touch cred now]> (credentials a)) (routeAuth a)).
Proof.
  intros (secret & (s & p & Hh & Hs & Hp & Hl & Hd & Hk) & Hc & He & Hin & Hhash).
  unfold Authenticate.
  assert (String.eqb h "" = false) as ->.
  { apply String.eqb_neq. rewrite Hh. apply append_sep_nonempty. }
  assert (Split " " h = [s; p]) as -> by (by apply Split_two).
  rewrite Hl, Hd. simpl.
  assert (SplitN2 ":" (key +:+ ":" +:+ secret) = [key; secret]) as ->
    by (by apply SplitN2_two).
  rewrite Hc, He. simpl.
  apply containsKey_In in Hin. rewrite Hin. simpl.
  rewrite Hhash, String.eqb_refl. done.
Qed.

Lemma Authenticate_true a h routeID now :
  fst (Authenticate a h routeID now) = true ->
  exists key cred, accepted a h routeID key cred.
Proof.
  unfold Authenticate. intros H.
  repeat case_match; simplify_eq/=.
  repeat match goal with
         | Hn : negb _ = false |- _ => apply negb_false_iff in Hn
         | Hn : String.eqb _ _ = true |- _ => apply String.eqb_eq in Hn
         end.
  match goal with
  | Hs : Split _ _ = [?s; ?p], Hd : DecodeString _ = Some ?d,
    Hk : SplitN2 _ _ = [?k; ?v], Hc : credentials _ !! _ = Some ?c |- _ =>
      apply Split_two in Hs as (Hh & Hs0 & Hs1);
      apply SplitN2_two in Hk as (Hd' & Hk0);
      exists k, c; exists v;
      split; [exists s, p; subst d; by repeat split |]
  end.
  split; [done | split; [done | split; [by apply containsKey_In | done]]].
Qed.

Lemma Authenticate_false a h routeID now :
  fst (Authenticate a h routeID now) = false ->
  snd (Authenticate a h routeID now) = a.
Proof.
  unfold Authenticate. intros H.
  repeat case_match; simplify_eq/=; done.
Qed.

(** C7. [Authenticate] answers true exactly when the header is
    [Basic <base64>] (one space, scheme compared without case) whose
    payload decodes to [key:secret], the key is in the store, enabled,
    listed for the route, and the hash of the secret is the stored one.
    Every failure is the same plain [false] and leaves the store as it
    was; success sets the credential's [LastUsed] and nothing else.
    A disabled credential fails, and so does one not listed for the
    requested route. *)
Theorem Authenticate_spec a h routeID now :
  let res := Authenticate a h routeID now in
  (fst res = true <-> exists key cred, accepted a h routeID key cred) /\
  (fst res = false -> res = (false, a)) /\
  (forall key cred,
     accepted a h routeID key cred ->
     res = (true, mkAuth (<[key := touch cred now]> (credentials a))
                         (routeAuth a))) /\
  (forall key secret cred,
     basic_credentials h key secret ->
     credentials a !! key = Some cred ->
     Enabled cred = false ->
     res = (false, a)) /\
  (forall key secret,
     basic_credentials h key secret ->
     ~ In key (keysOf a routeID) ->
     res = (false, a)).
Proof.
  intros res.
  assert (fst res = false -> res = (false, a)) as Hfalse.
  { intros H. pose proof (Authenticate_false a h routeID now H) as Hs.
    subst res. destruct (Authenticate a h routeID now). simpl in *.
    by subst. }
  assert (fst res = true -> exists key cred, accepted a h routeID key cred)
    as Htrue by apply Authenticate_true.
  split; [| split; [done | split; [| split]]].
  - split; [done |]. intros (key & cred & Hacc).
    subst res. by rewrite (Authenticate_accepted a h routeID now key cred).
  - intros key cred Hacc. by apply Authenticate_accepted.
  - intros key secret cred Hb Hc Hdis. apply Hfalse.
    destruct (fst res) eqn:Hres; [| done].
    destruct (Htrue eq_refl) as (key' & cred' & secret' & Hb' & Hc' & He' & _).
    destruct (basic_credentials_functional h key secret key' secret' Hb Hb')
      as [<- <-].
    congruence.
  - intros key secret Hb Hnot. apply Hfalse.
    destruct (fst res) eqn:Hres; [| done].
    destruct (Htrue eq_refl)
      as (key' & cred' & secret' & Hb' & _ & _ & Hin' & _).
    destruct (basic_credentials_functional h key secret key' secret' Hb Hb')
      as [<- <-].
    done.
Qed.

End Libraries.

(** After [AddCredential] on a store without the key, the key is listed
    for the credential's own route and for no route that did not list it
    before. *)
Lemma AddCredential_keysOf a cred now routeID :
  credentials a !! APIKey cred = None ->
  keysOf (snd (AddCredential a cred now)) routeID =
  if decide (routeID = RouteID cred)
  then keysOf a routeID ++ [APIKey cred]
  else keysOf a routeID.
Proof.
  intros Hnone. unfold AddCredential. rewrite Hnone.
  destruct (Created cred =? 0)%Z; simpl; unfold keysOf at 1; simpl;
    (destruct (decide (routeID = RouteID cred)) as [->|Hne];
     [by rewrite lookup_insert_eq | by rewrite lookup_insert_ne]).
Qed.


End AuthFacts.

Module AuthExamples.
Import Auth AuthFacts GoLibrary AuthFixtures.

Example b64decode_key_secret :
  GoLibrary.b64decode "YXBrXzE6YXBzXzE=" = Some "apk_1:aps_1".
Proof. reflexivity. Qed.

Lemma usersHeader :
  basic_credentials asciiLower b64decode "Basic YXBrXzE6YXBzXzE=" "apk_1" "aps_1".
Proof. exists "Basic", "YXBrXzE6YXBzXzE=". by repeat split. Defined.

Lemma productsHeader :
  basic_credentials asciiLower b64decode "Basic YXBrXzI6YXBzXzI=" "apk_2" "aps_2".
Proof. exists "Basic", "YXBrXzI6YXBzXzI=". by repeat split. Defined.

Lemma Authenticate_spec_witness :
  Authenticate asciiLower b64decode digest store "Basic YXBrXzE6YXBzXzE=" 1 500 =
    (true,
     mkAuth (<["apk_1" := mkCredential 1 1 "users client" "apk_1"
                            (digest "aps_1") 100 500 true]> (credentials store))
            (routeAuth store)) /\
  Authenticate asciiLower b64decode digest store "Basic YXBrXzE6YXBzXzE=" 2 500 =
    (false, store) /\
  Authenticate asciiLower b64decode digest store "Basic YXBrXzI6YXBzXzI=" 2 500 =
    (false, store).
Proof.
  split; [| split].
  - destruct (Authenticate_spec asciiLower b64decode digest store
                "Basic YXBrXzE6YXBzXzE=" 1 500) as (_ & _ & H & _).
    apply (H "apk_1" (mkCredential 1 1 "users client" "apk_1"
                                   (digest "aps_1") 100 0 true)).
    exists "aps_1". split; [exact usersHeader |].
    split; [by vm_compute |]. split; [done |].
    split; [by left | done].
  - destruct (Authenticate_spec asciiLower b64decode digest store
                "Basic YXBrXzE6YXBzXzE=" 2 500) as (_ & _ & _ & _ & H).
    apply (H "apk_1" "aps_1" usersHeader).
    vm_compute. intros [H1 | []]. discriminate H1.
  - destruct (Authenticate_spec asciiLower b64decode digest store
                "Basic YXBrXzI6YXBzXzI=" 2 500) as (_ & _ & _ & H & _).
    apply (H "apk_2" "aps_2"
             (mkCredential 2 2 "products client" "apk_2"
                           (digest "aps_2") 200 0 false) productsHeader).
    + by vm_compute.
    + done.
Defined.

End AuthExamples.

Module TrafficFacts.
Import GoInt Traffic.

Lemma wrap_add_l w a b : (0 < w) -> wrap w (wrap w a + b) = wrap w (a + b).
Proof.
  intros Hw. unfold wrap.
  set (h := 2 ^ (w - 1)). set (m := 2 ^ w).
  replace ((a + h) mod m - h + b + h) with ((a + h) mod m + b) by lia.
  rewrite Zplus_mod_idemp_l. f_equal. f_equal. lia.
Qed.

Lemma wrap64_add_l a b : wrap64 (wrap64 a + b) = wrap64 (a + b).
Proof. apply wrap_add_l. lia. Qed.

Lemma wrap64_idem a : wrap64 (wrap64 a) = wrap64 a.
Proof.
  pose proof (wrap64_add_l a 0) as H. by rewrite !Z.add_0_r in H.
Qed.

Lemma sumLoop_wsum data acc :
  totalRequests (sumLoop data acc) = wsum Requests data (totalRequests acc) /\
  totalErrors (sumLoop data acc) = wsum Errors data (totalErrors acc) /\
  totalLatency (sumLoop data acc) = wsum Latency data (totalLatency acc) /\
  count (sumLoop data acc) = wsum (fun _ => 1) data (count acc).
Proof.
  revert acc. induction data as [|d rest IH]; intros acc; simpl; [done |].
  apply IH.
Qed.

Lemma wsum_spec f data a :
  wrap64 a = a -> wsum f data a = wrap64 (a + sumOf f data).
Proof.
  revert a. induction data as [|d rest IH]; intros a Ha; simpl.
  - by rewrite Z.add_0_r.
  - rewrite IH by apply wrap64_idem.
    rewrite wrap64_add_l. f_equal. lia.
Qed.

Lemma sumOf_ones data : sumOf (fun _ => 1) data = Z.of_nat (length data).
Proof. induction data as [|d rest IH]; simpl; lia. Qed.

Lemma quot_in_int64 a b : in_int64 a -> 0 < b -> in_int64 (a ÷ b).
Proof.
  unfold in_int64. intros Ha Hb.
  destruct (Z.le_gt_cases 0 a) as [Hpos|Hneg].
  - pose proof (Z.quot_pos a b Hpos Hb).
    assert (a ÷ b <= a) by (apply Z.quot_le_upper_bound; nia).
    lia.
  - assert (a ÷ b = - ((- a) ÷ b)) as ->.
    { rewrite Z.quot_opp_l by lia. lia. }
    pose proof (Z.quot_pos (- a) b ltac:(lia) Hb).
    assert ((- a) ÷ b <= - a) by (apply Z.quot_le_upper_bound; nia).
    lia.
Qed.

Lemma int_div_exact a b : in_int64 a -> 0 < b -> int_div a b = a ÷ b.
Proof.
  intros Ha Hb. unfold int_div.
  apply ProxyStatsFacts.wrap64_small. by apply quot_in_int64.
Qed.

(** The point the roll-up stores, when the exact sums fit an [int]. *)
Lemma hourData_average data stamp :
  data <> [] ->
  Z.of_nat (length data) < 2 ^ 63 ->
  in_int64 (sumOf Requests data) ->
  in_int64 (sumOf Errors data) ->
  in_int64 (sumOf Latency data) ->
  let t := sumLoop data (mkTotals 0 0 0 0) in
  mkTrafficData stamp
                (int_div (totalRequests t) (count t))
                (int_div (totalErrors t) (count t))
                (int_div (totalLatency t) (count t))
  = averagePoint stamp data.
Proof.
  intros Hne Hlen Hr He Hl t.
  destruct (sumLoop_wsum data (mkTotals 0 0 0 0)) as (H1 & H2 & H3 & H4).
  fold t in H1, H2, H3, H4. simpl in *.
  rewrite wsum_spec in H1, H2, H3, H4 by done.
  rewrite Z.add_0_l in H1, H2, H3, H4.
  rewrite sumOf_ones in H4.
  assert (0 < Z.of_nat (length data)) as Hpos.
  { destruct data; [done | simpl; lia]. }
  rewrite ProxyStatsFacts.wrap64_small in H1, H2, H3, H4
    by (done || (unfold in_int64; lia)).
  rewrite H1, H2, H3, H4. unfold averagePoint.
  by rewrite !int_div_exact.
Qed.

(** C8. On a minute buffer that is not empty, one hourly roll-up appends
    one point to the hour buffer: each of its counters is the sum over the
    samples present divided (as integers, rounding toward zero) by the
    number of those samples, not by 60; the hour buffer then holds at most
    24 points, the oldest being dropped; the minute buffer is left as it
    was.  With 60 samples the divisor is 60.  The exact sums are assumed
    to fit an [int]. *)
Theorem aggregateHourlyData_average ta stamp :
  hourlyData ta <> [] ->
  Z.of_nat (length (hourlyData ta)) < 2 ^ 63 ->
  in_int64 (sumOf Requests (hourlyData ta)) ->
  in_int64 (sumOf Errors (hourlyData ta)) ->
  in_int64 (sumOf Latency (hourlyData ta)) ->
  let point := averagePoint stamp (hourlyData ta) in
  let ta' := aggregateHourlyData ta stamp in
  hourlyData ta' = hourlyData ta /\
  weeklyData ta' = weeklyData ta /\
  (length (dailyData ta) < 24 -> dailyData ta' = dailyData ta ++ [point])%nat /\
  (24 <= length (dailyData ta) ->
   dailyData ta' = drop (length (dailyData ta) - 23) (dailyData ta) ++ [point])%nat /\
  (length (dailyData ta') <= 24)%nat /\
  last (dailyData ta') = Some point /\
  (length (hourlyData ta) = 60%nat ->
   point = mkTrafficData stamp
             (sumOf Requests (hourlyData ta) ÷ 60)
             (sumOf Errors (hourlyData ta) ÷ 60)
             (sumOf Latency (hourlyData ta) ÷ 60)).
Proof.
  intros Hne Hlen Hr He Hl point ta'.
  assert (ta' =
          let daily := dailyData ta ++ [point] in
          mkAnalytics (hourlyData ta)
            (if (24 <? length daily)%nat then drop (length daily - 24) daily
             else daily)
            (weeklyData ta) (pathDistribution ta) (errorTypes ta)
            (latencyDistribution ta)) as ->.
  { unfold ta', aggregateHourlyData.
    destruct (hourlyData ta) as [|d rest] eqn:Hd; [done |].
    replace (length (d :: rest) =? 0)%nat with false by done.
    cbv zeta. rewrite hourData_average by (done || by rewrite <- Hd).
    done. }
  cbv zeta. simpl. rewrite length_app. simpl.
  split; [done |]. split; [done |].
  destruct (Nat.ltb_spec 24 (length (dailyData ta) + 1)) as [Hbig|Hsmall].
  - split; [lia |]. split.
    + intros _. rewrite drop_app_le by lia. f_equal. f_equal. lia.
    + split.
      * rewrite length_drop, length_app. simpl. lia.
      * split; [| intros H60; unfold point, averagePoint; by rewrite H60].
        rewrite drop_app_le by lia. by rewrite last_snoc.
  - split; [done |]. split; [lia |]. split.
    + rewrite length_app. simpl. lia.
    + split; [by rewrite last_snoc |].
      intros H60. unfold point, averagePoint. by rewrite H60.
Qed.

Lemma aggregateHourlyData_average_witness :
  dailyData (aggregateHourlyData threeMinutes "2024-05-01T11:00:00Z") =
  [ mkTrafficData "2024-05-01T11:00:00Z" 90 1 45 ].
Proof.
  destruct (aggregateHourlyData_average threeMinutes "2024-05-01T11:00:00Z")
    as (_ & _ & H & _).
  - discriminate.
  - reflexivity.
  - split; [discriminate | reflexivity].
  - split; [discriminate | reflexivity].
  - split; [discriminate | reflexivity].
  - apply H. simpl. lia.
Defined.

End TrafficFacts.

Module GatewayFacts.
Import GoInt RouteTable ProxyStats Gateway.

(** C2, as the handler has it. For a request that matches a route with
    [AuthRequired] and passes the limiter: without an [Authorization]
    header the answer is 401 and the proxy is not touched; with any
    header, whatever it holds, [proxyRequest] runs. *)
Theorem handleProxyRequest_auth_presence g r created now x route :
  FindRouteByPath (config g) (URLPath r) (Method r) = Some route ->
  AuthRequired route = true ->
  passesLimiter g route created now ->
  let out := handleProxyRequest g r created now x in
  (Authorization r = "" ->
   fst out = Answered StatusUnauthorized /\ proxy (snd out) = proxy g) /\
  (Authorization r <> "" ->
   isProxied (fst out) /\
   proxy (snd out) = snd (ProxyRequest (proxy g) route x)).
Proof.
  intros Hfind Hauth Hpass out. subst out.
  unfold handleProxyRequest. rewrite Hfind, Hauth. simpl.
  set (lim := if EnableRateLimit (config g) then _ else _).
  assert (fst lim = true) as Hallowed.
  { unfold lim. destruct Hpass as [Hoff | Hon].
    - by rewrite Hoff.
    - by destruct (EnableRateLimit (config g)). }
  destruct lim as [allowed rl]. simpl in Hallowed. subst allowed. simpl.
  split.
  - intros ->. done.
  - intros Hne. apply String.eqb_neq in Hne. rewrite Hne.
    destruct (ProxyRequest (proxy g) route x) as [outcome p']. done.
Qed.

Lemma handleProxyRequest_auth_presence_witness :
  fst (handleProxyRequest gateway0 noHeader 1000000000 1000000000 answered200)
    = Answered 401 /\
  isProxied
    (fst (handleProxyRequest gateway0 wrongSecret 1000000000 1000000000 answered200)).
Proof.
  split.
  - apply (handleProxyRequest_auth_presence gateway0 noHeader 1000000000
             1000000000 answered200 usersRoute); [done | done | | done].
    right. by vm_compute.
  - apply (handleProxyRequest_auth_presence gateway0 wrongSecret 1000000000
             1000000000 answered200 usersRoute); [done | done | | done].
    right. by vm_compute.
Defined.

(** C2 as stated fails: the request matches route 1, which requires
    authentication, and passes the limiter; [Authenticate] rejects its
    header, a well-formed Basic header with the wrong secret, for that
    route; the handler forwards it all the same and answers 200. *)
Lemma forwarded_without_authenticate :
  FindRouteByPath (config gateway0) (URLPath wrongSecret) (Method wrongSecret)
    = Some usersRoute /\
  AuthRequired usersRoute = true /\
  passesLimiter gateway0 usersRoute 1000000000 1000000000 /\
  fst (Auth.Authenticate GoLibrary.asciiLower GoLibrary.b64decode
         GoLibrary.digest AuthFixtures.store
         (Authorization wrongSecret) (ID usersRoute) 1000000000) = false /\
  fst (handleProxyRequest gateway0 wrongSecret 1000000000 1000000000 answered200)
    = Proxied 200.
Proof.
  split; [done |]. split; [done |]. split; [right; by vm_compute |].
  split; by vm_compute.
Qed.

(** X5. [validateRoute] accepts a route exactly when its path starts with ["/"],
    its target is not empty and it lists at least one method. *)
Theorem validateRoute_accepts route :
  validateRoute route = None <->
  (exists rest, Path route = "/" +:+ rest) /\
  Target route <> "" /\
  Methods route <> [].
Proof.
  unfold validateRoute.
  destruct (String.eqb_spec (Path route) "") as [Hp|Hp].
  - split; [done |]. intros [[rest H] _]. rewrite Hp in H. discriminate.
  - destruct (HasPrefix (Path route) "/") eqn:Hs; simpl.
    + apply RouteTableFacts.HasPrefix_spec in Hs.
      destruct (String.eqb_spec (Target route) "") as [Ht|Ht].
      * split; [done | by intros (_ & ? & _)].
      * destruct (Methods route) as [|m ms]; simpl.
        -- split; [done | by intros (_ & _ & ?)].
        -- split; [intros _ | done]. by repeat split.
    + split; [done |]. intros [Hpre _].
      apply RouteTableFacts.HasPrefix_spec in Hpre. congruence.
Qed.

End GatewayFacts.

Module RateLimiterRunsFacts.
Import GoInt RouteTable RateLimiter RateLimiterFacts RateLimiterRuns.
Local Open Scope Q_scope.



Lemma secondsBetween_nonneg t u : (t <= u)%Z -> 0 <= secondsBetween t u.
Proof. intros H. unfold secondsBetween, Qle. simpl. lia. Qed.



Lemma takeAll_cons b now rest :
  takeAll b (now :: rest) =
  (((if fst (TakeToken b now) then 1 else 0)
    + fst (takeAll (snd (TakeToken b now)) rest))%nat,
   snd (takeAll (snd (TakeToken b now)) rest)).
Proof.
  simpl. destruct (TakeToken b now) as [ok b1]. simpl.
  destruct (takeAll b1 rest) as [n b2]. by destruct ok.
Qed.




Lemma refilled_same_instant b :
  tokens b <= capacity b -> refilled b (lastRefillTime b) == tokens b.
Proof.
  intros Hhi. unfold refilled. rewrite Time_Sub_same, Duration_Seconds_0.
  rewrite Q.min_r; [ring | lra].
Qed.

Lemma inject_Z_ge_1 m : (1 <= m)%Z -> 1 <= inject_Z m.
Proof. intros H. unfold Qle. simpl. lia. Qed.

Lemma takeAll_same_instant k :
  forall b m,
    (0 <= m)%Z ->
    tokens b == inject_Z m ->
    tokens b <= capacity b ->
    fst (takeAll b (replicate k (lastRefillTime b))) = Nat.min k (Z.to_nat m).
Proof.
  induction k as [|k IH]; intros b m Hm Htok Hhi; [done |].
  change (replicate (S k) (lastRefillTime b))
    with (lastRefillTime b :: replicate k (lastRefillTime b)).
  rewrite takeAll_cons. cbn [fst].
  pose proof (refilled_same_instant b Hhi) as Hr.
  destruct (TakeToken_frame b (lastRefillTime b)) as (Hcap & _ & Hlast).
  set (b1 := snd (TakeToken b (lastRefillTime b))) in *.
  replace (replicate k (lastRefillTime b))
    with (replicate k (lastRefillTime b1)) by (by rewrite Hlast).
  destruct (TakeToken_refilled b (lastRefillTime b))
    as [(Hlt & -> & Htok1) | (Hge & -> & Htok1)]; fold b1 in Htok1.
  - assert (m = 0)%Z as ->.
    { rewrite Hr, Htok in Hlt. unfold Qlt in Hlt. simpl in Hlt. lia. }
    rewrite (IH b1 0%Z); [lia | lia | by rewrite Htok1, Hr | ].
    rewrite Htok1, Hr, Hcap. done.
  - assert (1 <= m)%Z as Hm1.
    { rewrite Hr, Htok in Hge. unfold Qle in Hge. simpl in Hge. lia. }
    rewrite (IH b1 (m - 1)%Z); [lia | lia | |].
    + rewrite Htok1, Hr, Htok.
      unfold Qeq, Qminus, Qplus, Qopp, inject_Z. simpl. lia.
    + rewrite Htok1, Hr, Hcap. lra.
Qed.

(** X7. A bucket just created for a limit [L] accepts a burst of exactly [L]
    calls: of [k] calls of [TakeToken] at the reading of its creation, the
    first [min k L] are all that is accepted. *)
Theorem fresh_bucket_burst L created k :
  (0 <= L)%Z ->
  fst (takeAll (newBucket L created) (replicate k created))
  = Nat.min k (Z.to_nat L).
Proof.
  intros HL.
  apply (takeAll_same_instant k (newBucket L created) L HL).
  - reflexivity.
  - apply Qle_refl.
Qed.

Lemma fresh_bucket_burst_witness :
  fst (takeAll (newBucket 3 0) (replicate 10 0%Z)) = 3%nat.
Proof. apply (fresh_bucket_burst 3 0 10). lia. Defined.

End RateLimiterRunsFacts.

Module ProxyStatsRunsFacts.
Import GoInt RouteTable ProxyStats ProxyStatsFacts ProxyStatsRuns.
Local Open Scope Q_scope.

(** Addition of rationals commutes on the right as terms, not only up to
    [==]: what folding over a map in any order needs. *)
Lemma Qplus_right_comm (y a b : Q) : y + a + b = y + b + a.
Proof.
  destruct y as [yn yd], a as [an ad], b as [bn bd].
  unfold Qplus. simpl. f_equal.
  - rewrite !Pos2Z.inj_mul. ring.
  - rewrite <- !Pos.mul_assoc. f_equal. apply Pos.mul_comm.
Qed.

Lemma sumRouteStats_insert m path rs :
  m !! path = None ->
  sumRouteStats (<[path := rs]> m) =
  (fst (sumRouteStats m) + AvgLatency rs * float64_of_int (Requests rs),
   wrap64 (snd (sumRouteStats m) + Requests rs)).
Proof.
  intros Hnone. unfold sumRouteStats.
  rewrite map_fold_insert_L; [done | | done].
  intros j1 j2 z1 z2 [s n] _ _ _. simpl. f_equal.
  - apply Qplus_right_comm.
  - rewrite !TrafficFacts.wrap64_add_l. f_equal. lia.
Qed.

(** The sums before and after the statistics of [path] are replaced, both
    in terms of the sums over the other routes. *)
Lemma sumRouteStats_replace m path rs :
  exists s n,
    sumRouteStats (<[path := rs]> m) =
      (s + AvgLatency rs * float64_of_int (Requests rs),
       wrap64 (n + Requests rs)) /\
    match m !! path with
    | Some old =>
        sumRouteStats m =
          (s + AvgLatency old * float64_of_int (Requests old),
           wrap64 (n + Requests old))
    | None => sumRouteStats m = (s, n)
    end.
Proof.
  destruct (m !! path) as [old|] eqn:Hl.
  - exists (fst (sumRouteStats (delete path m))),
           (snd (sumRouteStats (delete path m))).
    split.
    + rewrite <- insert_delete_eq.
      apply sumRouteStats_insert, lookup_delete_eq.
    + rewrite <- (insert_delete_id m path old Hl) at 1.
      apply sumRouteStats_insert, lookup_delete_eq.
  - exists (fst (sumRouteStats m)), (snd (sumRouteStats m)).
    split; [by apply sumRouteStats_insert | by destruct (sumRouteStats m)].
Qed.

Lemma updateStats_totals p path latency isError now :
  stats (updateStats p path latency isError now) =
  let rs := match RouteStats (stats (updateStats p path latency isError now)) !! path with
            | Some rs => rs | None => mkRouteStat 0 0 0 end in
  let sums := sumRouteStats (RouteStats (stats (updateStats p path latency isError now))) in
  mkStats (wrap64 (TotalRequests (stats p) + 1))
          (RequestsPerSecond (stats (updateStats p path latency isError now)))
          (if (0 <? snd sums)%Z then fst sums / float64_of_int (snd sums)
           else fst sums)
          (ErrorRate (stats (updateStats p path latency isError now)))
          (ActiveConnections (stats p)) (Uptime (stats p))
          (RouteStats (stats (updateStats p path latency isError now))).
Proof. reflexivity. Qed.

Lemma totals_ok_step n ls p path latency isError now :
  (0 <= n)%Z -> (n + 1 < 2 ^ 63)%Z ->
  counters_ok n p ->
  totals_ok n ls p ->
  totals_ok (n + 1) (ls ++ [Duration_Seconds latency])
            (updateStats p path latency isError now).
Proof.
  intros Hn0 Hn [Hall _] (Htot & Hsum & Hcnt & _).
  pose proof RateLimiterFacts.pow63_pos as Hp.
  destruct (updateStats_RouteStats p path latency isError now)
    as (rs & Hmap & Hreq & _ & Havg).
  destruct (sumRouteStats_replace (RouteStats (stats p)) path rs)
    as (s & k & Hnew & Hold).
  set (old := match RouteStats (stats p) !! path with
              | Some rs => rs | None => mkRouteStat 0 0 0 end) in *.
  assert ((0 <= Requests old <= n)%Z) as Hold_range.
  { unfold old. destruct (RouteStats (stats p) !! path) as [rs0|] eqn:Hl.
    - destruct (Hall path rs0 Hl). lia.
    - simpl. lia. }
  assert (fst (sumRouteStats (RouteStats (stats p)))
          == s + AvgLatency old * float64_of_int (Requests old) /\
          snd (sumRouteStats (RouteStats (stats p))) = wrap64 (k + Requests old))
    as [Hs Hk].
  { unfold old. destruct (RouteStats (stats p) !! path) as [rs0|].
    - rewrite Hold. simpl. split; reflexivity.
    - rewrite Hold. simpl. split.
      + unfold float64_of_int. change (inject_Z 0) with 0. ring.
      + rewrite Hold in Hcnt. simpl in Hcnt. rewrite Z.add_0_r, Hcnt.
        symmetry. apply wrap64_small. unfold in_int64. lia. }
  rewrite wrap64_small in Hreq by (unfold in_int64; lia).
  rewrite !(wrap64_small (Requests old + 1)) in Havg by (unfold in_int64; lia).
  replace (Requests old + 1 - 1)%Z with (Requests old) in Havg by lia.
  rewrite (wrap64_small (Requests old)) in Havg by (unfold in_int64; lia).
  assert (AvgLatency rs * float64_of_int (Requests rs)
          == AvgLatency old * float64_of_int (Requests old)
             + Duration_Seconds latency) as Hweighted.
  { rewrite Havg, Hreq. unfold float64_of_int. field.
    apply inject_Z_nonzero. lia. }
  assert (fst (sumRouteStats (<[path := rs]> (RouteStats (stats p))))
          == Qsum (ls ++ [Duration_Seconds latency])) as Hsum'.
  { rewrite Hnew. simpl. rewrite Hweighted, Qsum_snoc, <- Hsum, Hs. ring. }
  assert (snd (sumRouteStats (<[path := rs]> (RouteStats (stats p))))
          = (n + 1)%Z) as Hcnt'.
  { rewrite Hnew. simpl. rewrite Hreq.
    replace (k + (Requests old + 1))%Z with ((k + Requests old) + 1)%Z by lia.
    rewrite <- TrafficFacts.wrap64_add_l, <- Hk, Hcnt.
    apply wrap64_small. unfold in_int64. lia. }
  unfold totals_ok. rewrite updateStats_totals. cbv zeta. cbn [TotalRequests
    AvgResponseTime RouteStats]. rewrite Hmap.
  split; [rewrite Htot; apply wrap64_small; unfold in_int64; lia |].
  split; [done |]. split; [done |].
  intros _. rewrite Hcnt'.
  destruct (Z.ltb_spec 0 (n + 1)) as [_|]; [| lia].
  unfold float64_of_int. by rewrite Hsum'.
Qed.

Lemma totals_ok_recordAll calls :
  forall n ls p,
    (0 <= n)%Z -> (n + Z.of_nat (length calls) < 2 ^ 63)%Z ->
    counters_ok n p ->
    totals_ok n ls p ->
    totals_ok (n + Z.of_nat (length calls)) (ls ++ latencies calls)
              (recordAll p calls).
Proof.
  induction calls as [|c cs IH]; intros n ls p Hn0 Hn Hcnt Htot.
  - simpl. by rewrite Z.add_0_r, app_nil_r.
  - simpl length in *. rewrite Nat2Z.inj_succ in *.
    replace (n + Z.succ (Z.of_nat (length cs)))%Z
      with ((n + 1) + Z.of_nat (length cs))%Z by lia.
    replace (ls ++ latencies (c :: cs))
      with ((ls ++ [Duration_Seconds (s_latency c)]) ++ latencies cs)
      by (by rewrite <- app_assoc).
    apply IH; [lia | lia | |].
    + apply counters_ok_step; [done | lia | done].
    + apply totals_ok_step; [done | lia | done | done].
Qed.

(** X8. After any sequence of at least one and fewer than [2^63] recordings
    on a fresh proxy, [TotalRequests] is the number of recordings and
    [AvgResponseTime] is the arithmetic mean of all their latencies, over
    all routes together (in exact arithmetic). *)
Theorem AvgResponseTime_is_overall_mean c t0 calls :
  calls <> [] ->
  (Z.of_nat (length calls) < 2 ^ 63)%Z ->
  let p := recordAll (NewProxy c t0) calls in
  TotalRequests (stats p) = Z.of_nat (length calls) /\
  AvgResponseTime (stats p) == mean (latencies calls).
Proof.
  intros Hne Hlen p.
  destruct (totals_ok_recordAll calls 0 [] (NewProxy c t0))
    as (Htot & _ & _ & Havg).
  - lia.
  - lia.
  - split; [| done]. intros path rs H. simpl in H.
    by rewrite lookup_empty in H.
  - repeat split; (done || lia).
  - rewrite Z.add_0_l in *. simpl in Havg. split; [done |].
    unfold mean, latencies. rewrite length_map. apply Havg.
    destruct calls; [done | simpl; lia].
Qed.

Lemma AvgResponseTime_is_overall_mean_witness :
  AvgResponseTime (stats (recordAll (NewProxy RateLimiter.defaultConfig 0)
                                    threeCalls)) == 4 # 10.
Proof.
  destruct (AvgResponseTime_is_overall_mean RateLimiter.defaultConfig 0 threeCalls)
    as [_ H]; [discriminate | reflexivity |].
  rewrite H. reflexivity.
Defined.

End ProxyStatsRunsFacts.

Module RouteCRUDFacts.
Import GoInt RouteTable RouteTableFacts RouteCRUD.

Lemma wrap64_id x : in_int64 x -> wrap64 x = x.
Proof. apply ProxyStatsFacts.wrap64_small. Qed.

Lemma scanNextID_above routes :
  forall next,
    1 <= next ->
    Forall (fun r => ID r + 1 < 2 ^ 63) routes ->
    next <= scanNextID routes next /\
    Forall (fun r => ID r < scanNextID routes next) routes.
Proof.
  pose proof RateLimiterFacts.pow63_pos as Hp.
  induction routes as [|r rest IH]; intros next Hpos Hsmall; simpl.
  - split; [lia | constructor].
  - apply Forall_cons in Hsmall as [Hr Hrest].
    destruct (Z.geb_spec (ID r) next) as [Hge|Hlt].
    + rewrite wrap64_id by (unfold in_int64; lia).
      destruct (IH (ID r + 1) ltac:(lia) Hrest) as [H1 H2].
      split; [lia |]. constructor; [lia | done].
    + destruct (IH next Hpos Hrest) as [H1 H2].
      split; [done |]. constructor; [lia | done].
Qed.

(** X9. Whenever [LoadConfig] returns a configuration, every route in it
    has an id below [nextRouteID], and [nextRouteID] is at least 1; for a
    file that was parsed this needs the ids in the file to be below the
    largest [int]. *)
Theorem LoadConfig_next_above_ids file c :
  match file with
  | Parsed parsed => Forall (fun r => ID r + 1 < 2 ^ 63) (Routes parsed)
  | _ => True
  end ->
  LoadConfig file = Some c ->
  1 <= nextRouteID c /\ Forall (fun r => ID r < nextRouteID c) (Routes c).
Proof.
  intros Hsmall Hload. destruct file as [[|] | | | parsed]; simpl in Hload;
    try discriminate; injection Hload as <-; simpl.
  - split; [lia |]. repeat constructor; simpl; lia.
  - apply scanNextID_above; [lia | done].
Qed.

Lemma LoadConfig_next_above_ids_witness :
  1 <= 8 /\
  Forall (fun r => ID r < 8)
         [withID usersRoute 7; withID ordersRoute 3].
Proof.
  apply (LoadConfig_next_above_ids
           (Parsed (mkConfig 9000 true 10 30
                             [withID usersRoute 7; withID ordersRoute 3] 0))
           (mkConfig 9000 true 10 30
                     [withID usersRoute 7; withID ordersRoute 3] 8)).
  - repeat constructor; simpl; lia.
  - reflexivity.
Defined.

Lemma getIn_app routes r id :
  getIn (routes ++ [r]) id =
  match getIn routes id with
  | Some x => Some x
  | None => if ID r =? id then Some r else None
  end.
Proof.
  induction routes as [|x rest IH]; simpl; [done |].
  by destruct (ID x =? id).
Qed.

Lemma getIn_None routes id :
  getIn routes id = None <-> ~ In id (map ID routes).
Proof.
  induction routes as [|x rest IH]; simpl; [tauto |].
  destruct (Z.eqb_spec (ID x) id) as [->|Hne].
  - split; [done | intros H; exfalso; apply H; by left].
  - rewrite IH. split; [intros H [?|?]; done | tauto].
Qed.

Lemma getIn_Some_ID routes id r : getIn routes id = Some r -> ID r = id /\ In r routes.
Proof.
  induction routes as [|x rest IH]; simpl; [done |].
  destruct (Z.eqb_spec (ID x) id) as [Heq|Hne].
  - intros [= <-]. split; [done | by left].
  - intros H. destruct (IH H). split; [done | by right].
Qed.

Lemma below_not_in routes next :
  Forall (fun r => ID r < next) routes -> ~ In next (map ID routes).
Proof.
  intros Hall Hin. apply in_map_iff in Hin as (r & Heq & Hr).
  rewrite Forall_forall in Hall.
  assert (r ∈ routes) as Hel by (by apply list_elem_of_In).
  specialize (Hall r Hel). simpl in Hall. lia.
Qed.

Lemma AddRoute_ids_ok c route :
  ids_ok c ->
  nextRouteID c + 1 < 2 ^ 63 ->
  nextRouteID (snd (AddRoute c route)) = nextRouteID c + 1 /\
  ids_ok (snd (AddRoute c route)).
Proof.
  intros (Hpos & Hbelow & Hnodup) Hsmall.
  pose proof RateLimiterFacts.pow63_pos as Hp.
  assert (nextRouteID (snd (AddRoute c route)) = nextRouteID c + 1) as Hnext.
  { unfold AddRoute. simpl. apply wrap64_id. unfold in_int64. lia. }
  split; [done |]. split; [lia |]. split.
  - rewrite Hnext. unfold AddRoute. simpl.
    apply Forall_app. split.
    + eapply Forall_impl; [exact Hbelow |]. simpl. intros r Hr. lia.
    + repeat constructor. simpl. lia.
  - unfold AddRoute. simpl. rewrite map_app. simpl.
    apply NoDup_app. split; [done |]. split.
    + intros x Hx Hx'. apply list_elem_of_In in Hx.
      apply list_elem_of_singleton in Hx'. subst x.
      by apply (below_not_in (Routes c) (nextRouteID c)).
    + apply NoDup_singleton.
Qed.

(** X10. [AddRoute] on a table whose ids are distinct and below
    [nextRouteID] (which does not overflow): the id returned was used by no
    route of the table, [GetRoute] of it afterwards returns the route given
    with that id, every other id looks up as before, the route stands at
    the end of the list, and the ids stay distinct and below the new
    [nextRouteID]. *)
Theorem AddRoute_fresh_and_retrievable c route :
  ids_ok c ->
  nextRouteID c + 1 < 2 ^ 63 ->
  let id := fst (AddRoute c route) in
  let c' := snd (AddRoute c route) in
  GetRoute c id = None /\
  GetRoute c' id = Some (withID route id) /\
  (forall id', id' <> id -> GetRoute c' id' = GetRoute c id') /\
  Routes c' = Routes c ++ [withID route id] /\
  nextRouteID c' = nextRouteID c + 1 /\
  ids_ok c'.
Proof.
  intros (Hpos & Hbelow & Hnodup) Hsmall. cbv zeta.
  change (fst (AddRoute c route)) with (nextRouteID c).
  set (c' := snd (AddRoute c route)).
  pose proof RateLimiterFacts.pow63_pos as Hp.
  assert (getIn (Routes c) (nextRouteID c) = None) as Hfresh.
  { apply getIn_None. by apply below_not_in. }
  assert (nextRouteID c' = nextRouteID c + 1) as Hnext.
  { unfold c', AddRoute. simpl. apply wrap64_id. unfold in_int64. lia. }
  split; [done |]. split.
  { unfold c', GetRoute, AddRoute. simpl. rewrite getIn_app, Hfresh. simpl.
    by rewrite Z.eqb_refl. }
  split.
  { intros id' Hne. unfold c', GetRoute, AddRoute. simpl. rewrite getIn_app.
    destruct (getIn (Routes c) id'); [done |]. simpl.
    destruct (Z.eqb_spec (nextRouteID c) id'); [| done].
    exfalso. apply Hne. done. }
  split; [done |].
  destruct (AddRoute_ids_ok c route) as [H1 H2]; [by repeat split | done |].
  by split.
Qed.

Lemma AddRoute_fresh_and_retrievable_witness :
  fst (AddRoute (mkConfig 8000 true 100 30 defaultRoutes 5) ordersRoute) = 5 /\
  GetRoute (snd (AddRoute (mkConfig 8000 true 100 30 defaultRoutes 5) ordersRoute)) 5
  = Some (withID ordersRoute 5).
Proof.
  destruct (AddRoute_fresh_and_retrievable
              (mkConfig 8000 true 100 30 defaultRoutes 5) ordersRoute)
    as (_ & H & _).
  - split; [simpl; lia |]. split.
    + repeat constructor; simpl; lia.
    + simpl. apply (bool_decide_unpack _). by vm_compute.
  - simpl. lia.
  - split; [reflexivity | exact H].
Defined.

Lemma updateIn_None routes route :
  updateIn routes route = None <-> getIn routes (ID route) = None.
Proof.
  induction routes as [|r rest IH]; simpl; [done |].
  destruct (ID r =? ID route); [done |].
  destruct (updateIn rest route); [| tauto].
  split; [done |]. intros H. apply IH in H. done.
Qed.

Lemma updateIn_Some routes route routes' :
  updateIn routes route = Some routes' ->
  getIn routes' (ID route) = Some route /\
  (forall id', id' <> ID route -> getIn routes' id' = getIn routes id') /\
  map ID routes' = map ID routes.
Proof.
  revert routes'. induction routes as [|r rest IH]; intros routes'; simpl;
    [done |].
  destruct (Z.eqb_spec (ID r) (ID route)) as [Heq|Hne].
  - intros [= <-]. simpl. rewrite Z.eqb_refl. split; [done |]. split.
    + intros id' Hid. rewrite Heq.
      destruct (Z.eqb_spec (ID route) id'); [by subst |]. done.
    + by rewrite Heq.
  - destruct (updateIn rest route) as [rest'|]; [| done].
    intros [= <-]. destruct (IH rest' eq_refl) as (H1 & H2 & H3). simpl.
    destruct (Z.eqb_spec (ID r) (ID route)); [done |].
    split; [done |]. split.
    + intros id' Hid. destruct (ID r =? id'); [done | by apply H2].
    + by rewrite H3.
Qed.

Lemma UpdateRoute_ids_ok c route : ids_ok c -> ids_ok (snd (UpdateRoute c route)).
Proof.
  intros (Hpos & Hbelow & Hnodup). unfold UpdateRoute.
  destruct (updateIn (Routes c) route) as [routes'|] eqn:Hu; [| done].
  destruct (updateIn_Some _ _ _ Hu) as (_ & _ & Hids).
  unfold ids_ok. simpl.
  split; [done |]. split; [| by rewrite Hids].
  apply Forall_forall. intros r Hr.
  assert (In (ID r) (map ID (Routes c))) as Hin.
  { rewrite <- Hids. apply in_map. by apply list_elem_of_In. }
  apply in_map_iff in Hin as (r0 & Heq & Hr0).
  rewrite Forall_forall in Hbelow.
  specialize (Hbelow r0 ltac:(by apply list_elem_of_In)). simpl in Hbelow. lia.
Qed.

(** X11. [UpdateRoute] answers false and changes nothing when no route has
    the id of the route given; otherwise it answers true, [GetRoute] of that
    id returns the route given, every other id looks up as before, and the
    ids of the table, their order and [nextRouteID] are as before. *)
Theorem UpdateRoute_replaces_by_id c route :
  (GetRoute c (ID route) = None -> UpdateRoute c route = (false, c)) /\
  (forall old,
     GetRoute c (ID route) = Some old ->
     let c' := snd (UpdateRoute c route) in
     fst (UpdateRoute c route) = true /\
     GetRoute c' (ID route) = Some route /\
     (forall id', id' <> ID route -> GetRoute c' id' = GetRoute c id') /\
     map ID (Routes c') = map ID (Routes c) /\
     nextRouteID c' = nextRouteID c).
Proof.
  unfold GetRoute, UpdateRoute. split.
  - intros Hnone. apply updateIn_None in Hnone. by rewrite Hnone.
  - intros old Hold.
    destruct (updateIn (Routes c) route) as [routes'|] eqn:Hu.
    + destruct (updateIn_Some _ _ _ Hu) as (H1 & H2 & H3). by repeat split.
    + apply updateIn_None in Hu. congruence.
Qed.

Lemma UpdateRoute_replaces_by_id_witness :
  fst (UpdateRoute (mkConfig 8000 true 100 30 defaultRoutes 5)
                   (withID ordersRoute 2)) = true /\
  GetRoute (snd (UpdateRoute (mkConfig 8000 true 100 30 defaultRoutes 5)
                             (withID ordersRoute 2))) 2
  = Some (withID ordersRoute 2) /\
  UpdateRoute (mkConfig 8000 true 100 30 defaultRoutes 5) (withID ordersRoute 9)
  = (false, mkConfig 8000 true 100 30 defaultRoutes 5).
Proof.
  destruct (UpdateRoute_replaces_by_id
              (mkConfig 8000 true 100 30 defaultRoutes 5) (withID ordersRoute 2))
    as [_ H].
  destruct (H _ eq_refl) as (H1 & H2 & _).
  destruct (UpdateRoute_replaces_by_id
              (mkConfig 8000 true 100 30 defaultRoutes 5) (withID ordersRoute 9))
    as [H3 _].
  split; [exact H1 |]. split; [exact H2 | exact (H3 eq_refl)].
Defined.

Lemma deleteIn_None routes id :
  deleteIn routes id = None <-> getIn routes id = None.
Proof.
  induction routes as [|r rest IH]; simpl; [done |].
  destruct (ID r =? id); [done |].
  destruct (deleteIn rest id); [| tauto].
  split; [done |]. intros H. apply IH in H. done.
Qed.

Lemma deleteIn_Some routes id routes' :
  deleteIn routes id = Some routes' ->
  exists pre old post,
    routes = pre ++ old :: post /\
    routes' = pre ++ post /\
    ID old = id /\
    ~ In id (map ID pre).
Proof.
  revert routes'. induction routes as [|r rest IH]; intros routes'; simpl;
    [done |].
  destruct (Z.eqb_spec (ID r) id) as [Heq|Hne].
  - intros [= <-]. exists [], r, rest.
    split; [done |]. split; [done |]. split; [done |]. simpl. tauto.
  - destruct (deleteIn rest id) as [rest'|]; [| done].
    intros [= <-]. destruct (IH rest' eq_refl) as (pre & old & post & -> & -> & H1 & H2).
    exists (r :: pre), old, post.
    split; [done |]. split; [done |]. split; [done |].
    simpl. intros [?|?]; done.
Qed.

Lemma getIn_skip pre old post id' :
  id' <> ID old ->
  getIn (pre ++ old :: post) id' = getIn (pre ++ post) id'.
Proof.
  intros Hne. induction pre as [|x pre IH]; simpl.
  - destruct (Z.eqb_spec (ID old) id'); [by subst | done].
  - by rewrite IH.
Qed.

Lemma DeleteRoute_ids_ok c id : ids_ok c -> ids_ok (snd (DeleteRoute c id)).
Proof.
  intros (Hpos & Hbelow & Hnodup). unfold DeleteRoute.
  destruct (deleteIn (Routes c) id) as [routes'|] eqn:Hd; [| done].
  destruct (deleteIn_Some _ _ _ Hd) as (pre & old & post & Hr & -> & _ & _).
  unfold ids_ok. simpl. rewrite Hr in *. split; [done |]. split.
  - apply Forall_app in Hbelow as [H1 H2]. apply Forall_cons in H2 as [_ H2].
    apply Forall_app. by split.
  - rewrite map_app in *. simpl in Hnodup.
    apply NoDup_app in Hnodup as (H1 & H2 & H3).
    apply NoDup_cons in H3 as [H3 H4].
    apply NoDup_app. split; [done |]. split; [| done].
    intros x Hx Hx'. apply (H2 x Hx). by right.
Qed.

(** X12. [DeleteRoute] answers false and changes nothing when no route has
    the id; otherwise it answers true, removes exactly one route, and every
    other id looks up as before.  When the ids of the table are distinct,
    the id is gone afterwards: [GetRoute] does not find it and
    [FindRouteByPath] returns no route with that id. *)
Theorem DeleteRoute_removes_by_id c id :
  (GetRoute c id = None -> DeleteRoute c id = (false, c)) /\
  (forall old,
     GetRoute c id = Some old ->
     let c' := snd (DeleteRoute c id) in
     fst (DeleteRoute c id) = true /\
     S (length (Routes c')) = length (Routes c) /\
     (forall id', id' <> id -> GetRoute c' id' = GetRoute c id') /\
     nextRouteID c' = nextRouteID c /\
     (NoDup (map ID (Routes c)) ->
      GetRoute c' id = None /\
      forall path method r,
        FindRouteByPath c' path method = Some r -> ID r <> id)).
Proof.
  unfold GetRoute, DeleteRoute. split.
  - intros Hnone. apply deleteIn_None in Hnone. by rewrite Hnone.
  - intros old Hold.
    destruct (deleteIn (Routes c) id) as [routes'|] eqn:Hd.
    2: { apply deleteIn_None in Hd. congruence. }
    destruct (deleteIn_Some _ _ _ Hd) as (pre & old' & post & Hr & -> & Hid & Hpre).
    simpl. rewrite Hr. split; [done |]. split.
    { rewrite !length_app. simpl. lia. }
    split.
    { intros id' Hne. symmetry. apply getIn_skip. congruence. }
    split; [done |].
    intros Hnodup.
    assert (~ In id (map ID (pre ++ post))) as Hgone.
    { rewrite map_app in *. simpl in Hnodup.
      apply NoDup_app in Hnodup as (H1 & H2 & H3).
      apply NoDup_cons in H3 as [H3 H4].
      intros Hin. apply in_app_or in Hin as [Hin|Hin]; [done |].
      apply H3. apply list_elem_of_In. by rewrite Hid. }
    split; [by apply getIn_None |].
    intros path method r Hfind Hidr.
    unfold FindRouteByPath in Hfind. simpl in Hfind.
    apply findIn_Some in Hfind as (l1 & l2 & Heq & _).
    apply Hgone. rewrite Heq, <- Hidr. apply in_map.
    apply in_or_app. right. by left.
Qed.

Lemma DeleteRoute_removes_by_id_witness :
  fst (DeleteRoute (mkConfig 8000 true 100 30 defaultRoutes 5) 3) = true /\
  GetRoute (snd (DeleteRoute (mkConfig 8000 true 100 30 defaultRoutes 5) 3)) 3
  = None /\
  DeleteRoute (mkConfig 8000 true 100 30 defaultRoutes 5) 9
  = (false, mkConfig 8000 true 100 30 defaultRoutes 5).
Proof.
  destruct (DeleteRoute_removes_by_id
              (mkConfig 8000 true 100 30 defaultRoutes 5) 3) as [_ H].
  destruct (H _ eq_refl) as (H1 & _ & _ & _ & H2).
  destruct H2 as [H2 _].
  { simpl. apply (bool_decide_unpack _). by vm_compute. }
  destruct (DeleteRoute_removes_by_id
              (mkConfig 8000 true 100 30 defaultRoutes 5) 9) as [H3 _].
  split; [exact H1 |]. split; [exact H2 | exact (H3 eq_refl)].
Defined.

Lemma crud_step_ids_ok c c' :
  crud_step c c' -> ids_ok c -> ids_ok c' /\ nextRouteID c <= nextRouteID c'.
Proof.
  intros Hstep Hok. destruct Hstep as [c route Hsmall | c route | c id].
  - destruct (AddRoute_ids_ok c route Hok Hsmall) as [Hn Hok']. split; [done | lia].
  - split; [by apply UpdateRoute_ids_ok |].
    unfold UpdateRoute. by destruct (updateIn (Routes c) route).
  - split; [by apply DeleteRoute_ids_ok |].
    unfold DeleteRoute. by destruct (deleteIn (Routes c) id).
Qed.

Lemma crud_steps_ids_ok c c' :
  crud_steps c c' -> ids_ok c -> ids_ok c' /\ nextRouteID c <= nextRouteID c'.
Proof.
  intros Hsteps Hok. induction Hsteps as [c | c c1 c2 Hsteps IH Hstep].
  - split; [done | lia].
  - destruct (IH Hok) as [Hok1 Hle].
    destruct (crud_step_ids_ok c1 c2 Hstep Hok1) as [Hok2 Hle2].
    split; [done | lia].
Qed.

(** X13. Ids are not handed out twice. From a table with distinct ids
    below [nextRouteID], after an [AddRoute] and then any number of
    [AddRoute], [UpdateRoute] and [DeleteRoute] calls (no overflow of the
    next id), the ids of the table are still distinct, and a further
    [AddRoute] returns an id larger than the one returned first and larger
    than the id of every route in the table. *)
Theorem route_ids_not_reused c route c' route' :
  ids_ok c ->
  nextRouteID c + 1 < 2 ^ 63 ->
  crud_steps (snd (AddRoute c route)) c' ->
  fst (AddRoute c route) < fst (AddRoute c' route') /\
  Forall (fun r => ID r < fst (AddRoute c' route')) (Routes c') /\
  NoDup (map ID (Routes c')).
Proof.
  intros Hok Hsmall Hsteps.
  destruct (AddRoute_ids_ok c route Hok Hsmall) as [Hn Hok1].
  destruct (crud_steps_ids_ok _ _ Hsteps Hok1) as [(_ & Hbelow & Hnodup) Hle].
  change (fst (AddRoute c route)) with (nextRouteID c).
  change (fst (AddRoute c' route')) with (nextRouteID c').
  split; [lia | by split].
Qed.

Lemma route_ids_not_reused_witness :
  5 < fst (AddRoute
             (snd (DeleteRoute
                     (snd (AddRoute (mkConfig 8000 true 100 30 defaultRoutes 5)
                                    ordersRoute)) 5))
             usersRoute).
Proof.
  destruct (route_ids_not_reused
              (mkConfig 8000 true 100 30 defaultRoutes 5) ordersRoute
              (snd (DeleteRoute
                      (snd (AddRoute (mkConfig 8000 true 100 30 defaultRoutes 5)
                                     ordersRoute)) 5))
              usersRoute) as [H _].
  - split; [simpl; lia |]. split.
    + repeat constructor; simpl; lia.
    + simpl. apply (bool_decide_unpack _). by vm_compute.
  - simpl. lia.
  - eapply steps_more; [apply steps_none | apply step_delete].
  - exact H.
Defined.

Lemma findIn_app routes r path method :
  findIn (routes ++ [r]) path method =
  match findIn routes path method with
  | Some x => Some x
  | None => if route_matchesb path method r then Some r else None
  end.
Proof.
  induction routes as [|x rest IH].
  - simpl app. rewrite findIn_step. simpl. by destruct (route_matchesb _ _ r).
  - change ((x :: rest) ++ [r]) with (x :: (rest ++ [r])).
    rewrite !findIn_step, IH. by destruct (route_matchesb path method x).
Qed.

(** X14. A route added later never takes a request away from a route that
    matched it before: after [AddRoute], [FindRouteByPath] returns for every
    request the route it returned before, and for a request that matched
    nothing it returns the new route exactly when that route is active and
    matches the path and the method. *)
Theorem AddRoute_keeps_matches c route path method :
  let c' := snd (AddRoute c route) in
  (forall r,
     FindRouteByPath c path method = Some r ->
     FindRouteByPath c' path method = Some r) /\
  (FindRouteByPath c path method = None ->
   (route_matches path method route ->
    FindRouteByPath c' path method = Some (withID route (nextRouteID c))) /\
   (~ route_matches path method route ->
    FindRouteByPath c' path method = None)).
Proof.
  unfold FindRouteByPath, AddRoute. simpl. rewrite findIn_app.
  assert (route_matchesb path method (withID route (nextRouteID c))
          = route_matchesb path method route) as -> by done.
  split.
  - by intros r ->.
  - intros ->. split.
    + intros Hm. apply route_matchesb_spec in Hm. by rewrite Hm.
    + intros Hm. rewrite <- route_matchesb_spec in Hm.
      by destruct (route_matchesb path method route).
Qed.

End RouteCRUDFacts.

(** ** The credential store *)

Module AuthStoreFacts.
Import Auth AuthFacts AuthStore.

Lemma keysOf_insert a creds r keys r' :
  keysOf (mkAuth creds (<[r := keys]> (routeAuth a))) r' =
  if decide (r' = r) then keys else keysOf a r'.
Proof.
  unfold keysOf. simpl. destruct (decide (r' = r)) as [->|Hne].
  - by rewrite lookup_insert_eq.
  - by rewrite lookup_insert_ne.
Qed.

Lemma findByID_found range id :
  (exists cred, In (fst (findByID range id), cred) range /\
                ID cred = id /\ snd (findByID range id) = RouteID cred) \/
  (findByID range id = ("", 0) /\
   forall k cred, In (k, cred) range -> ID cred <> id).
Proof.
  induction range as [|[k cred] rest IH]; simpl.
  - right. split; [done |]. intros k cred [].
  - destruct (Z.eqb_spec (ID cred) id) as [Heq|Hne].
    + left. exists cred. simpl. split; [by left | done].
    + destruct IH as [(c & Hin & Hid & Hr) | [Hnone Hall]].
      * left. exists c. split; [by right | done].
      * right. split; [done |]. intros k' c' [[= <- <-] | Hin]; [done |].
        by apply (Hall k').
Qed.

Lemma findByID_key range id :
  (forall k cred, In (k, cred) range -> ID cred = id -> k = "") ->
  fst (findByID range id) = "".
Proof.
  intros Hall. induction range as [|[k cred] rest IH]; simpl; [done |].
  destruct (Z.eqb_spec (ID cred) id) as [Heq|Hne].
  - simpl. apply (Hall k cred); [by left | done].
  - apply IH. intros k' c' Hin. apply Hall. by right.
Qed.

Lemma removeKey_None keys apiKey :
  removeKey keys apiKey = None <-> ~ In apiKey keys.
Proof.
  induction keys as [|k rest IH]; simpl; [tauto |].
  destruct (String.eqb_spec k apiKey) as [->|Hne].
  - split; [done | tauto].
  - destruct (removeKey rest apiKey); [| tauto].
    split; [done |]. intros H.
    assert (~ In apiKey rest) as Hn by tauto.
    apply IH in Hn. done.
Qed.

Lemma removeKey_Some keys apiKey keys' :
  removeKey keys apiKey = Some keys' ->
  exists pre post,
    keys = pre ++ apiKey :: post /\ keys' = pre ++ post /\ ~ In apiKey pre.
Proof.
  revert keys'. induction keys as [|k rest IH]; intros keys'; simpl; [done |].
  destruct (String.eqb_spec k apiKey) as [->|Hne].
  - intros [= <-]. exists [], rest. split; [done |]. split; [done |].
    simpl. tauto.
  - destruct (removeKey rest apiKey) as [rest'|]; [| done].
    intros [= <-]. destruct (IH rest' eq_refl) as (pre & post & -> & -> & Hpre).
    exists (k :: pre), post. split; [done |]. split; [done |].
    simpl. intros [?|?]; done.
Qed.

Lemma index_ok_new : index_ok NewAuth.
Proof.
  split; [| split].
  - intros k cred H. simpl in H. by rewrite lookup_empty in H.
  - intros r k [].
  - intros r. apply NoDup_nil_2.
Qed.

Lemma index_ok_add a cred now :
  index_ok a -> index_ok (snd (AddCredential a cred now)).
Proof.
  intros Hok. pose proof Hok as (H1 & H2 & H3).
  destruct (credentials a !! APIKey cred) as [old|] eqn:Hold.
  { unfold AddCredential. by rewrite Hold. }
  pose proof (AddCredential_keysOf a cred now) as Hkeys.
  specialize (fun r => Hkeys r Hold).
  assert (exists stored,
            credentials (snd (AddCredential a cred now))
            = <[APIKey cred := stored]> (credentials a) /\
            APIKey stored = APIKey cred /\ RouteID stored = RouteID cred)
    as (stored & Hcreds & Hk & Hr).
  { unfold AddCredential. rewrite Hold.
    destruct (Created cred =? 0)%Z; simpl; eexists; by repeat split. }
  set (a' := snd (AddCredential a cred now)) in *. clearbody a'.
  assert (~ In (APIKey cred) (keysOf a (RouteID cred))) as Hfresh.
  { intros Hin. destruct (H2 _ _ Hin) as (c & Hc & _). congruence. }
  split; [| split].
  - intros k c. rewrite Hcreds. intros Hc.
    destruct (decide (k = APIKey cred)) as [->|Hne].
    + rewrite lookup_insert_eq in Hc. injection Hc as <-. split; [done |].
      rewrite Hkeys, Hr, decide_True by done. apply in_or_app. right. by left.
    + rewrite lookup_insert_ne in Hc by done.
      destruct (H1 _ _ Hc) as [Hkc Hin]. split; [done |].
      rewrite Hkeys. destruct (decide _) as [Heq|_]; [| done].
      apply in_or_app. by left.
  - intros r k. rewrite Hkeys, Hcreds.
    destruct (decide (r = RouteID cred)) as [->|Hne].
    + intros Hin. apply in_app_or in Hin as [Hin | [<- | []]].
      * destruct (H2 _ _ Hin) as (c & Hc & Hrc). exists c.
        split; [| done]. rewrite lookup_insert_ne; [done | congruence].
      * exists stored. by rewrite lookup_insert_eq.
    + intros Hin. destruct (H2 _ _ Hin) as (c & Hc & Hrc). exists c.
      split; [| done]. rewrite lookup_insert_ne; [done | congruence].
  - intros r. rewrite Hkeys. destruct (decide _) as [->|_]; [| done].
    apply NoDup_app. split; [done |]. split; [| apply NoDup_singleton].
    intros x Hx Hx'. apply list_elem_of_singleton in Hx'. subst x.
    apply Hfresh. by apply list_elem_of_In.
Qed.

Lemma index_ok_touch a key cred now :
  index_ok a ->
  credentials a !! key = Some cred ->
  index_ok (mkAuth (<[key := touch cred now]> (credentials a)) (routeAuth a)).
Proof.
  intros (H1 & H2 & H3) Hc. split; [| split].
  - intros k c. simpl. destruct (decide (k = key)) as [->|Hne].
    + rewrite lookup_insert_eq. intros [= <-]. simpl. by apply H1.
    + rewrite lookup_insert_ne by done. apply H1.
  - intros r k Hin. destruct (H2 r k Hin) as (c & Hkc & Hr). simpl.
    destruct (decide (k = key)) as [->|Hne].
    + exists (touch cred now). rewrite lookup_insert_eq. split; [done |].
      simpl. congruence.
    + exists c. by rewrite lookup_insert_ne.
  - exact H3.
Qed.

Lemma index_ok_delete a range id :
  range ≡ₚ map_to_list (credentials a) ->
  index_ok a ->
  index_ok (snd (DeleteCredential a range id)).
Proof.
  intros Hrange Hok. pose proof Hok as (H1 & H2 & H3). unfold DeleteCredential.
  destruct (findByID_found range id) as [(cred & Hin & Hid & Hr) | [-> _]];
    [| done].
  destruct (findByID range id) as [apiKey routeID]. simpl in Hin, Hr. subst routeID.
  destruct (String.eqb apiKey ""); [done |].
  assert (credentials a !! apiKey = Some cred) as Hc.
  { apply elem_of_map_to_list. rewrite <- Hrange. by apply list_elem_of_In. }
  destruct (H1 _ _ Hc) as [_ Hlisted].
  destruct (removeKey (keysOf a (RouteID cred)) apiKey) as [keys'|] eqn:Hrm.
  2: { apply removeKey_None in Hrm. done. }
  destruct (removeKey_Some _ _ _ Hrm) as (pre & post & Hkeys & -> & Hpre).
  pose proof (H3 (RouteID cred)) as Hnd. rewrite Hkeys in Hnd.
  apply NoDup_app in Hnd as (Hnd1 & Hnd2 & Hnd3).
  apply NoDup_cons in Hnd3 as [Hnd3 Hnd4].
  assert (~ In apiKey (pre ++ post)) as Hgone.
  { intros Hi. apply in_app_or in Hi as [?|Hi]; [done |].
    apply Hnd3. by apply list_elem_of_In. }
  simpl. split; [| split].
  - intros k c. simpl. intros Hk.
    apply lookup_delete_Some in Hk as [Hne Hk].
    destruct (H1 _ _ Hk) as [Hkc Hin']. split; [done |].
    rewrite keysOf_insert. destruct (decide _) as [Heq|_]; [| done].
    rewrite Heq, Hkeys in Hin'.
    apply in_app_or in Hin' as [?|[?|?]]; [| congruence |];
      apply in_or_app; tauto.
  - intros r k. rewrite keysOf_insert. simpl.
    destruct (decide (r = RouteID cred)) as [->|Hne].
    + intros Hin'. destruct (H2 (RouteID cred) k) as (c & Hkc & Hrc).
      { rewrite Hkeys. apply in_app_or in Hin' as [?|?];
          apply in_or_app; simpl; tauto. }
      exists c. split; [| done].
      apply lookup_delete_Some. split; [| done]. intros <-. done.
    + intros Hin'. destruct (H2 r k Hin') as (c & Hkc & Hrc).
      exists c. split; [| done].
      apply lookup_delete_Some. split; [| done]. intros <-. congruence.
  - intros r. rewrite keysOf_insert. destruct (decide _) as [_|_]; [| done].
    apply NoDup_app. split; [done |]. split; [| done].
    intros x Hx Hx'. apply (Hnd2 x Hx). by right.
Qed.

Section Libraries.
Variable ToLower : string -> string.
Variable DecodeString : string -> option string.
Variable Sum256Hex : string -> string.

Local Abbreviation Authenticate := (Authenticate ToLower DecodeString Sum256Hex).
Local Abbreviation accepted := (accepted ToLower DecodeString Sum256Hex).
Local Abbreviation store_step := (store_step ToLower DecodeString Sum256Hex).
Local Abbreviation store_reachable :=
  (store_reachable ToLower DecodeString Sum256Hex).

Lemma index_ok_authenticate a h routeID now :
  index_ok a -> index_ok (snd (Authenticate a h routeID now)).
Proof.
  intros Hok.
  destruct (fst (Authenticate a h routeID now)) eqn:Hres.
  - destruct (Authenticate_true _ _ _ a h routeID now Hres)
      as (key & cred & Hacc).
    rewrite (Authenticate_accepted _ _ _ a h routeID now key cred Hacc). simpl.
    destruct Hacc as (secret & _ & Hc & _). by apply index_ok_touch.
  - by rewrite (Authenticate_false _ _ _ a h routeID now Hres).
Qed.

Lemma index_ok_step a a' : store_step a a' -> index_ok a -> index_ok a'.
Proof.
  intros Hstep Hok. destruct Hstep.
  - by apply index_ok_add.
  - by apply index_ok_authenticate.
  - by apply index_ok_delete.
Qed.

Lemma index_ok_reachable a : store_reachable a -> index_ok a.
Proof.
  induction 1 as [|a a' _ IH Hstep]; [apply index_ok_new |].
  by apply (index_ok_step a a').
Qed.

(** X15. A credential opens its own route only. In a store built from
    [NewAuth] by [AddCredential], [Authenticate] and [DeleteCredential]
    calls, whenever [Authenticate] answers true for a route the credential
    it used is stored under its own API key, is enabled, and its [RouteID]
    is the route asked for. *)
Theorem Authenticate_only_own_route a authHeader routeID now :
  store_reachable a ->
  fst (Authenticate a authHeader routeID now) = true ->
  exists key cred,
    credentials a !! key = Some cred /\
    APIKey cred = key /\
    RouteID cred = routeID /\
    Enabled cred = true /\
    credentials (snd (Authenticate a authHeader routeID now))
    = <[key := touch cred now]> (credentials a).
Proof.
  intros Hreach Hres.
  destruct (index_ok_reachable a Hreach) as (H1 & H2 & _).
  destruct (Authenticate_true _ _ _ a authHeader routeID now Hres)
    as (key & cred & Hacc).
  rewrite (Authenticate_accepted _ _ _ a authHeader routeID now key cred Hacc).
  destruct Hacc as (secret & _ & Hc & Hen & Hin & _).
  exists key, cred. destruct (H1 _ _ Hc) as [Hk _].
  destruct (H2 _ _ Hin) as (c & Hc' & Hr).
  assert (c = cred) as -> by congruence. by repeat split.
Qed.

End Libraries.

(** X16. [DeleteCredential] answers false and changes nothing when every
    credential with the id is stored under the empty API key (in particular
    when no credential has the id). When it answers true, a credential with
    that id and a non-empty key was in the store, exactly that key is
    removed from the credentials, and the key lists of the other routes are
    as before; in a store whose two maps agree they still agree and the key
    is listed for no route afterwards. The order in which Go ranges over
    the map is arbitrary. *)
Theorem DeleteCredential_removes a range id :
  range ≡ₚ map_to_list (credentials a) ->
  ((forall k cred,
      credentials a !! k = Some cred -> ID cred = id -> k = "") ->
   DeleteCredential a range id = (false, a)) /\
  (forall a',
     DeleteCredential a range id = (true, a') ->
     exists k cred,
       k <> "" /\
       credentials a !! k = Some cred /\
       ID cred = id /\
       credentials a' = delete k (credentials a) /\
       (forall r, r <> RouteID cred -> keysOf a' r = keysOf a r) /\
       (index_ok a -> index_ok a' /\ forall r, ~ In k (keysOf a' r))).
Proof.
  intros Hrange. split.
  - intros Hall. unfold DeleteCredential.
    assert (fst (findByID range id) = "") as Hk.
    { apply findByID_key. intros k cred Hin. apply Hall.
      apply elem_of_map_to_list. rewrite <- Hrange. by apply list_elem_of_In. }
    destruct (findByID range id) as [apiKey routeID]. simpl in Hk. by subst.
  - intros a' Hdel.
    pose proof (index_ok_delete a range id Hrange) as Hpres.
    rewrite Hdel in Hpres. simpl in Hpres.
    unfold DeleteCredential in Hdel.
    destruct (findByID_found range id) as [(cred & Hin & Hid & Hr) | [Hnone _]].
    2: { rewrite Hnone in Hdel. done. }
    destruct (findByID range id) as [apiKey routeID]. simpl in Hin, Hr.
    subst routeID.
    destruct (String.eqb_spec apiKey "") as [|Hne]; [done |].
    assert (credentials a !! apiKey = Some cred) as Hc.
    { apply elem_of_map_to_list. rewrite <- Hrange. by apply list_elem_of_In. }
    exists apiKey, cred.
    assert (credentials a' = delete apiKey (credentials a)) as Hcreds.
    { destruct (removeKey _ _); by injection Hdel as <-. }
    repeat (split; [done |]). split.
    + intros r Hr.
      destruct (removeKey _ _); injection Hdel as <-; [| done].
      rewrite keysOf_insert. by rewrite decide_False.
    + intros Hok. specialize (Hpres Hok). split; [done |].
      intros r Hin'. destruct Hpres as (_ & H2 & _).
      destruct (H2 r apiKey Hin') as (c & Hc' & _).
      rewrite Hcreds, lookup_delete_eq in Hc'. done.
Qed.

Lemma redactedOf_listed creds keys r :
  (forall k, In k keys ->
     exists cred, creds !! k = Some cred /\ APIKey cred = k /\ RouteID cred = r) ->
  map APIKey (redactedOf creds keys) = keys /\
  Forall (fun c => APISecret c = "" /\ RouteID c = r /\
                   exists cred, creds !! APIKey c = Some cred /\ c = redact cred)
         (redactedOf creds keys).
Proof.
  induction keys as [|k rest IH]; intros Hall; simpl; [by split |].
  destruct (Hall k (or_introl eq_refl)) as (cred & Hc & Hk & Hr).
  rewrite Hc. destruct IH as [IH1 IH2].
  { intros k' Hin. apply Hall. by right. }
  simpl. split; [by rewrite Hk, IH1 |].
  apply Forall_cons. split; [| done].
  simpl. split; [done |]. split; [done |]. exists cred. by rewrite Hk.
Qed.

(** X17. In a store whose two maps agree, [GetCredentialsByRoute] returns
    one credential for each key listed for the route, in the order of the
    list; each is the stored credential with its secret blanked, and each
    belongs to the route asked for. A route with no keys gives the empty
    list. *)
Theorem GetCredentialsByRoute_redacted a routeID :
  index_ok a ->
  let creds := GetCredentialsByRoute a routeID in
  map APIKey creds = keysOf a routeID /\
  Forall (fun c => APISecret c = "" /\ RouteID c = routeID /\
                   exists cred, credentials a !! APIKey c = Some cred /\
                                c = redact cred) creds /\
  (routeAuth a !! routeID = None -> creds = []).
Proof.
  intros (H1 & H2 & _) creds.
  destruct (redactedOf_listed (credentials a) (keysOf a routeID) routeID)
    as [Hkeys Hall].
  { intros k Hin. destruct (H2 _ _ Hin) as (c & Hc & Hr).
    exists c. destruct (H1 _ _ Hc) as [Hk _]. done. }
  split; [done |]. split; [done |].
  intros Hnone. unfold creds, GetCredentialsByRoute, keysOf. by rewrite Hnone.
Qed.

Lemma fold_loadOne_snoc l cred a :
  fold_left loadOne (l ++ [cred]) a = loadOne (fold_left loadOne l a) cred.
Proof. by rewrite fold_left_app. Qed.

Lemma load_credentials (range : list (string * Credential)) :
  (forall k cred, In (k, cred) range -> APIKey cred = k) ->
  credentials (fold_left loadOne (map snd range) NewAuth)
  = list_to_map (reverse range).
Proof.
  induction range as [|[k cred] rest IH] using rev_ind; intros Hall; [done |].
  rewrite map_app, reverse_app. simpl map.
  rewrite fold_loadOne_snoc. simpl.
  rewrite IH.
  - rewrite (Hall k cred); [done |]. apply in_or_app. right. by left.
  - intros k' c' Hin. apply Hall. apply in_or_app. by left.
Qed.

Lemma keysOf_loadOne a cred r :
  keysOf (loadOne a cred) r =
  if decide (r = RouteID cred)
  then keysOf a (RouteID cred) ++ [APIKey cred]
  else keysOf a r.
Proof. apply keysOf_insert. Qed.

Lemma load_keysOf creds r :
  keysOf (fold_left loadOne creds NewAuth) r
  = map APIKey (filter (fun c => RouteID c = r) creds).
Proof.
  induction creds as [|cred rest IH] using rev_ind; [done |].
  rewrite fold_loadOne_snoc, filter_app, map_app.
  rewrite keysOf_loadOne.
  destruct (decide (r = RouteID cred)) as [->|Hne].
  - rewrite IH. rewrite (filter_cons_True _ cred []) by done. done.
  - rewrite IH. rewrite (filter_cons_False _ cred []) by done.
    simpl. by rewrite app_nil_r.
Qed.

(** X18. Saving and loading again restores the store. For a store whose
    two maps agree, loading the slice that [SaveCredentials] encodes (the
    JSON encoder and decoder in between taken as faithful) into any store
    gives exactly the credentials saved, secrets included, and for every
    route the same keys, possibly in another order. A decoding error
    leaves the store as it was. *)
Theorem LoadCredentials_restores_saved a range other :
  index_ok a ->
  range ≡ₚ map_to_list (credentials a) ->
  let a' := snd (LoadCredentials other (Some (SaveCredentials range))) in
  fst (LoadCredentials other (Some (SaveCredentials range))) = true /\
  credentials a' = credentials a /\
  (forall r, keysOf a' r ≡ₚ keysOf a r) /\
  index_ok a' /\
  LoadCredentials other None = (false, other).
Proof.
  intros Hok Hrange a'. pose proof Hok as (H1 & H2 & H3).
  assert (forall k cred, In (k, cred) range -> credentials a !! k = Some cred)
    as Hin_range.
  { intros k cred Hin. apply elem_of_map_to_list. rewrite <- Hrange.
    by apply list_elem_of_In. }
  assert (forall k cred, In (k, cred) range -> APIKey cred = k) as Hkey.
  { intros k cred Hin. by apply (H1 k cred), Hin_range. }
  assert (NoDup (map fst range)) as Hnd.
  { change (map fst range) with (range.*1). rewrite Hrange.
    apply NoDup_fst_map_to_list. }
  assert (credentials a' = credentials a) as Hcreds.
  { unfold a', LoadCredentials, SaveCredentials. simpl.
    rewrite load_credentials by done.
    rewrite <- (list_to_map_to_list (credentials a)).
    apply list_to_map_proper.
    - rewrite fmap_reverse, reverse_Permutation. exact Hnd.
    - by rewrite reverse_Permutation. }
  assert (map APIKey (map snd range) = map fst range) as Hkeys.
  { clear -Hkey. induction range as [|[k c] rest IH]; [done |].
    simpl. rewrite (Hkey k c) by (by left). f_equal. apply IH.
    intros k' c' Hin. apply Hkey. by right. }
  assert (forall r, keysOf a' r
                    = map APIKey (filter (fun c => RouteID c = r) (map snd range)))
    as Hlisted.
  { intros r. unfold a', LoadCredentials, SaveCredentials. simpl.
    apply load_keysOf. }
  assert (forall r k, In k (keysOf a' r) <-> In k (keysOf a r)) as Hsame.
  { intros r k. rewrite Hlisted. rewrite in_map_iff. split.
    - intros (c & Hk & Hc). apply list_elem_of_In in Hc.
      apply list_elem_of_filter in Hc as [Hr Hc].
      apply list_elem_of_In, in_map_iff in Hc as ([k' c'] & Heq & Hc).
      simpl in Heq. subst c'. pose proof (Hkey _ _ Hc) as Hk'.
      apply Hin_range in Hc. destruct (H1 _ _ Hc) as [_ Hl]. congruence.
    - intros Hin. destruct (H2 _ _ Hin) as (c & Hc & Hr).
      exists c. split; [by apply (H1 k c) |].
      apply list_elem_of_In, list_elem_of_filter. split; [done |].
      apply list_elem_of_In, in_map_iff. exists (k, c). split; [done |].
      apply list_elem_of_In. rewrite Hrange. by apply elem_of_map_to_list. }
  assert (forall r, NoDup (keysOf a' r)) as Hnd'.
  { intros r. rewrite Hlisted.
    assert (forall l : list Credential,
              NoDup (map APIKey l) ->
              NoDup (map APIKey (filter (fun c => RouteID c = r) l))) as Hsub.
    { induction l as [|c l IH]; [done |]. simpl. intros Hl.
      apply NoDup_cons in Hl as [Hc Hl].
      destruct (decide (RouteID c = r)).
      - rewrite filter_cons_True by done. simpl. apply NoDup_cons.
        split; [| by apply IH]. intros Hi. apply Hc.
        apply list_elem_of_In, in_map_iff in Hi as (c' & Hk' & Hc').
        apply list_elem_of_In, list_elem_of_filter in Hc' as [_ Hc'].
        apply list_elem_of_In, in_map_iff. exists c'. split; [done |].
        by apply list_elem_of_In.
      - rewrite filter_cons_False by done. by apply IH. }
    apply Hsub. by rewrite Hkeys. }
  split; [done |]. split; [done |]. split.
  { intros r. apply NoDup_Permutation; [done | done |].
    intros k. rewrite !list_elem_of_In. apply Hsame. }
  split; [| done].
  split; [| split].
  - intros k cred. rewrite Hcreds. intros Hc. destruct (H1 _ _ Hc) as [Hk Hl].
    split; [done |]. by apply Hsame.
  - intros r k Hin. rewrite Hcreds. apply H2. by apply Hsame.
  - done.
Qed.

End AuthStoreFacts.

Module AuthStoreExamples.
Import Auth AuthFacts AuthStore AuthStoreFacts GoLibrary AuthFixtures.

Lemma store_reachable_fixture : store_reachable asciiLower b64decode digest store.
Proof.
  unfold store.
  eapply reach_step; [eapply reach_step; [apply reach_new |] |]; apply step_add.
Defined.

Lemma index_ok_fixture : index_ok store.
Proof. unfold store. apply index_ok_add, index_ok_add, index_ok_new. Defined.

Lemma Authenticate_only_own_route_witness :
  exists key cred,
    credentials store !! key = Some cred /\
    APIKey cred = key /\
    RouteID cred = 1 /\
    Enabled cred = true /\
    credentials (snd (Authenticate asciiLower b64decode digest store
                                   "Basic YXBrXzE6YXBzXzE=" 1 500))
    = <[key := touch cred 500]> (credentials store).
Proof.
  assert (fst (Authenticate asciiLower b64decode digest store
                            "Basic YXBrXzE6YXBzXzE=" 1 500) = true) as Htrue.
  { vm_compute. reflexivity. }
  exact (Authenticate_only_own_route asciiLower b64decode digest store
           "Basic YXBrXzE6YXBzXzE=" 1 500 store_reachable_fixture Htrue).
Defined.

Lemma DeleteCredential_removes_witness :
  exists k cred,
    k <> "" /\
    credentials store !! k = Some cred /\
    ID cred = 1 /\
    credentials (snd (DeleteCredential store (map_to_list (credentials store)) 1))
    = delete k (credentials store).
Proof.
  destruct (DeleteCredential_removes store (map_to_list (credentials store)) 1
              (Permutation_refl _)) as [_ H].
  assert (DeleteCredential store (map_to_list (credentials store)) 1
          = (true,
             snd (DeleteCredential store (map_to_list (credentials store)) 1)))
    as Htrue.
  { vm_compute. reflexivity. }
  destruct (H _ Htrue) as (k & cred & H1 & H2 & H3 & H4 & _).
  exists k, cred. split; [exact H1 |]. split; [exact H2 |].
  split; [exact H3 | exact H4].
Defined.

Lemma GetCredentialsByRoute_redacted_witness :
  map APIKey (GetCredentialsByRoute store 1) = keysOf store 1 /\
  Forall (fun c => APISecret c = "" /\ RouteID c = 1 /\
                   exists cred, credentials store !! APIKey c = Some cred /\
                                c = redact cred)
         (GetCredentialsByRoute store 1).
Proof.
  destruct (GetCredentialsByRoute_redacted store 1 index_ok_fixture)
    as (H1 & H2 & _).
  split; [exact H1 | exact H2].
Defined.

Lemma LoadCredentials_restores_saved_witness :
  credentials
    (snd (LoadCredentials NewAuth
            (Some (SaveCredentials (map_to_list (credentials store))))))
  = credentials store.
Proof.
  destruct (LoadCredentials_restores_saved store
              (map_to_list (credentials store)) NewAuth index_ok_fixture
              (Permutation_refl _)) as (_ & H & _).
  exact H.
Defined.

End AuthStoreExamples.

(** ** The sample buffers of the analytics *)

Module TrafficBuffersFacts.
Import GoInt Traffic TrafficFacts TrafficBuffers.

Lemma keepLast_length n s : (length (keepLast n s) <= n)%nat.
Proof.
  unfold keepLast. destruct (Nat.ltb_spec n (length s)).
  - rewrite length_drop. lia.
  - lia.
Qed.

Lemma keepLast_small n s : (length s <= n)%nat -> keepLast n s = s.
Proof.
  intros H. unfold keepLast. destruct (Nat.ltb_spec n (length s)); [lia | done].
Qed.

Lemma keepLast_snoc n s x :
  (0 < n)%nat ->
  keepLast n (keepLast n s ++ [x]) = keepLast n (s ++ [x]).
Proof.
  intros Hn. destruct (Nat.le_gt_cases (length s) n) as [Hle|Hgt].
  - by rewrite (keepLast_small n s).
  - unfold keepLast at 2. destruct (Nat.ltb_spec n (length s)); [| lia].
    unfold keepLast. rewrite !length_app, length_drop. simpl.
    destruct (Nat.ltb_spec n (length s - (length s - n) + 1)); [| lia].
    destruct (Nat.ltb_spec n (length s + 1)); [| lia].
    rewrite !drop_app_le by (rewrite ?length_drop; lia).
    rewrite drop_drop. f_equal. f_equal. lia.
Qed.

Lemma aggregateHourlyData_keepLast ta stamp :
  hourlyData (aggregateHourlyData ta stamp) = hourlyData ta /\
  weeklyData (aggregateHourlyData ta stamp) = weeklyData ta /\
  (dailyData (aggregateHourlyData ta stamp) = dailyData ta \/
   exists point,
     dailyData (aggregateHourlyData ta stamp)
     = keepLast 24 (dailyData ta ++ [point])).
Proof.
  unfold aggregateHourlyData.
  destruct (length (hourlyData ta) =? 0)%nat; [by repeat split; try left |].
  simpl. split; [done |]. split; [done |]. right. by eexists.
Qed.

Lemma tick_bounded ta ta' :
  tick ta ta' ->
  (length (hourlyData ta) <= 60 /\ length (dailyData ta) <= 24 /\
   length (weeklyData ta) <= 7)%nat ->
  (length (hourlyData ta') <= 60 /\ length (dailyData ta') <= 24 /\
   length (weeklyData ta') <= 7)%nat.
Proof.
  intros Htick (Hh & Hd & Hw). destruct Htick as [ta data m | ta stamp | ta stamp].
  - unfold collectData. destruct (last data); [| done]. simpl.
    split; [apply keepLast_length | done].
  - destruct (aggregateHourlyData_keepLast ta stamp) as (-> & -> & [-> | [p ->]]).
    + done.
    + split; [done |]. split; [apply keepLast_length | done].
  - unfold aggregateDailyData.
    destruct (length (dailyData ta) =? 0)%nat; [done |]. simpl.
    split; [done |]. split; [done | apply keepLast_length].
Qed.

Lemma ticked_bounded ta :
  ticked ta ->
  (length (hourlyData ta) <= 60 /\ length (dailyData ta) <= 24 /\
   length (weeklyData ta) <= 7)%nat.
Proof.
  induction 1 as [|ta ta' _ IH Htick]; [simpl; lia |].
  by apply (tick_bounded ta ta').
Qed.

(** X19. The buffers stay bounded. After any number of minute, hour and
    day ticks on the buffers of [NewTrafficAnalytics], the minute buffer
    holds at most 60 points, the hour buffer at most 24 and the day buffer
    at most 7; whatever range name [GetTrafficData] is asked for, it
    returns at most 60 points. *)
Theorem buffers_bounded ta :
  ticked ta ->
  (length (hourlyData ta) <= 60)%nat /\
  (length (dailyData ta) <= 24)%nat /\
  (length (weeklyData ta) <= 7)%nat /\
  forall timeRange, (length (GetTrafficData ta timeRange) <= 60)%nat.
Proof.
  intros Hticked. destruct (ticked_bounded ta Hticked) as (Hh & Hd & Hw).
  split; [done |]. split; [done |]. split; [done |].
  intros timeRange. unfold GetTrafficData.
  repeat case_match; lia.
Qed.

Lemma buffers_bounded_witness :
  (length (hourlyData
             (aggregateHourlyData
                (collectData NewTrafficAnalytics
                             [mkTrafficData "2024-05-01T10:00:00Z" 120 3 45]
                             noMock)
                "2024-05-01T11:00:00Z")) <= 60)%nat.
Proof.
  destruct (buffers_bounded
              (aggregateHourlyData
                 (collectData NewTrafficAnalytics
                              [mkTrafficData "2024-05-01T10:00:00Z" 120 3 45]
                              noMock)
                 "2024-05-01T11:00:00Z")) as [H _].
  - eapply ticked_more; [eapply ticked_more; [apply ticked_new |] |].
    + apply tick_minute.
    + apply tick_hour.
  - exact H.
Defined.

Lemma collectData_hourly ta data m :
  hourlyData (collectData ta data m) =
  match last data with
  | Some latestData => keepLast 60 (hourlyData ta ++ [latestData])
  | None => hourlyData ta
  end.
Proof. unfold collectData. by destruct (last data). Qed.

(** X20. The minute buffer is a sliding window. After any number of
    [collectData] calls on a buffer of at most 60 points, the buffer holds
    the points it had followed by the newest point of every batch that was
    not empty, in the order of the calls, cut to the last 60. A call whose
    batch is empty changes nothing, the three distribution maps included;
    no call touches the hour and day buffers. *)
Theorem collectData_sliding_window ta batches :
  (length (hourlyData ta) <= 60)%nat ->
  hourlyData (collectAll ta batches)
  = keepLast 60 (hourlyData ta ++ latestPoints batches) /\
  dailyData (collectAll ta batches) = dailyData ta /\
  weeklyData (collectAll ta batches) = weeklyData ta /\
  (forall m, collectData ta [] m = ta).
Proof.
  intros Hlen. split; [| split; [| split]]; [| | | done].
  - revert ta Hlen. induction batches as [|[data m] rest IH]; intros ta Hlen.
    + simpl. unfold latestPoints. simpl. rewrite app_nil_r.
      by rewrite keepLast_small.
    + simpl. rewrite IH.
      2: { rewrite collectData_hourly. destruct (last data); [| done].
           apply keepLast_length. }
      rewrite collectData_hourly. unfold latestPoints. simpl.
      destruct (last data) as [p|]; [| done].
      set (ps := omap _ rest). clearbody ps. clear IH.
      revert p. induction ps as [|q ps IHps] using rev_ind; intros p.
      * rewrite !app_nil_r. rewrite (keepLast_small 60 (keepLast _ _));
          [done | apply keepLast_length].
      * change (p :: ps ++ [q]) with ((p :: ps) ++ [q]).
        rewrite !app_assoc. rewrite <- (keepLast_snoc 60 (_ ++ ps)) by lia.
        rewrite IHps. rewrite keepLast_snoc by lia.
        by rewrite <- !app_assoc.
  - revert ta Hlen. induction batches as [|[data m] rest IH]; intros ta Hlen;
      [done |].
    simpl. rewrite IH.
    + unfold collectData. by destruct (last data).
    + rewrite collectData_hourly. destruct (last data); [| done].
      apply keepLast_length.
  - revert ta Hlen. induction batches as [|[data m] rest IH]; intros ta Hlen;
      [done |].
    simpl. rewrite IH.
    + unfold collectData. by destruct (last data).
    + rewrite collectData_hourly. destruct (last data); [| done].
      apply keepLast_length.
Qed.

Lemma collectData_sliding_window_witness :
  hourlyData
    (collectAll threeMinutes
       [([mkTrafficData "2024-05-01T10:03:00Z" 70 1 40], noMock);
        ([], noMock)])
  = hourlyData threeMinutes ++ [mkTrafficData "2024-05-01T10:03:00Z" 70 1 40].
Proof.
  destruct (collectData_sliding_window threeMinutes
              [([mkTrafficData "2024-05-01T10:03:00Z" 70 1 40], noMock);
               ([], noMock)]) as [H _].
  - simpl. lia.
  - exact H.
Defined.

(** X21. The daily roll-up. On an hour buffer that is not empty,
    [aggregateDailyData] appends one point to the day buffer: each counter
    is the integer quotient of the sum over the hour points present by
    their number; the day buffer then holds its last 7 points at most, and
    the minute and hour buffers are as before. On an empty hour buffer it
    changes nothing. The exact sums are assumed to fit an [int]. *)
Theorem aggregateDailyData_average ta stamp :
  (dailyData ta = [] -> aggregateDailyData ta stamp = ta) /\
  (dailyData ta <> [] ->
   Z.of_nat (length (dailyData ta)) < 2 ^ 63 ->
   in_int64 (sumOf Requests (dailyData ta)) ->
   in_int64 (sumOf Errors (dailyData ta)) ->
   in_int64 (sumOf Latency (dailyData ta)) ->
   let ta' := aggregateDailyData ta stamp in
   hourlyData ta' = hourlyData ta /\
   dailyData ta' = dailyData ta /\
   weeklyData ta'
   = keepLast 7 (weeklyData ta ++ [averagePoint stamp (dailyData ta)]) /\
   (length (weeklyData ta') <= 7)%nat /\
   last (weeklyData ta') = Some (averagePoint stamp (dailyData ta))).
Proof.
  split.
  - intros Hnil. unfold aggregateDailyData. by rewrite Hnil.
  - intros Hne Hlen Hr He Hl ta'.
    assert (ta' =
            mkAnalytics (hourlyData ta) (dailyData ta)
              (keepLast 7 (weeklyData ta ++ [averagePoint stamp (dailyData ta)]))
              (pathDistribution ta) (errorTypes ta) (latencyDistribution ta))
      as ->.
    { unfold ta', aggregateDailyData.
      destruct (dailyData ta) as [|d rest] eqn:Hd; [done |].
      replace (length (d :: rest) =? 0)%nat with false by done.
      cbv zeta. rewrite hourData_average by (done || by rewrite <- Hd).
      done. }
    simpl. split; [done |]. split; [done |]. split; [done |].
    split; [apply keepLast_length |].
    unfold keepLast. rewrite length_app. simpl.
    destruct (Nat.ltb_spec 7 (length (weeklyData ta) + 1)).
    + rewrite drop_app_le by lia. by rewrite last_snoc.
    + by rewrite last_snoc.
Qed.

Lemma aggregateDailyData_average_witness :
  weeklyData
    (aggregateDailyData
       (mkAnalytics [] [mkTrafficData "2024-05-01T11:00:00Z" 90 1 45;
                        mkTrafficData "2024-05-01T12:00:00Z" 71 2 40]
                    [] ∅ ∅ ∅)
       "2024-05-02T00:00:00Z")
  = [mkTrafficData "2024-05-02T00:00:00Z" 80 1 42].
Proof.
  destruct (aggregateDailyData_average
              (mkAnalytics [] [mkTrafficData "2024-05-01T11:00:00Z" 90 1 45;
                               mkTrafficData "2024-05-01T12:00:00Z" 71 2 40]
                           [] ∅ ∅ ∅)
              "2024-05-02T00:00:00Z") as [_ H].
  destruct H as (_ & _ & H & _).
  - discriminate.
  - reflexivity.
  - split; [discriminate | reflexivity].
  - split; [discriminate | reflexivity].
  - split; [discriminate | reflexivity].
  - exact H.
Defined.

End TrafficBuffersFacts.

(** ** Backend services and their health *)

Module ServicesFacts.
Import GoInt RouteTable Services.

Section Library.
Variable ParseHostname : string -> option string.

Local Abbreviation hostOf := (hostOf ParseHostname).
Local Abbreviation addService := (addService ParseHostname).
Local Abbreviation initServices := (initServices ParseHostname).

Lemma addService_keeps services route name svc :
  services !! name = Some svc ->
  addService services route !! name = Some svc.
Proof.
  intros Hs. unfold addService.
  destruct (hostOf route) as [n|]; [| done].
  destruct (services !! n) eqn:Hn; [done |].
  rewrite lookup_insert_ne; [done |]. intros ->. congruence.
Qed.

Lemma initServices_keeps routes services name svc :
  services !! name = Some svc ->
  initServices services routes !! name = Some svc.
Proof.
  revert services. induction routes as [|r rest IH]; intros services Hs;
    [done |].
  simpl. apply IH. by apply addService_keeps.
Qed.

Lemma addService_other services route name :
  hostOf route <> Some name ->
  addService services route !! name = services !! name.
Proof.
  intros Hne. unfold addService.
  destruct (hostOf route) as [n|]; [| done].
  destruct (services !! n); [done |].
  rewrite lookup_insert_ne; [done |]. intros ->. done.
Qed.

Lemma initServices_lookup routes services name svc :
  services !! name = None ->
  initServices services routes !! name = Some svc ->
  exists pre r post,
    routes = pre ++ r :: post /\
    hostOf r = Some name /\
    Forall (fun r' => hostOf r' <> Some name) pre /\
    svc = mkService name (Target r) "unknown" 0.
Proof.
  revert services. induction routes as [|r rest IH]; intros services Hnone Hs.
  - simpl in Hs. congruence.
  - simpl in Hs. destruct (decide (hostOf r = Some name)) as [Heq|Hne].
    + exists [], r, rest. split; [done |]. split; [done |].
      split; [constructor |].
      assert (addService services r !! name
              = Some (mkService name (Target r) "unknown" 0)) as Hadd.
      { unfold addService. rewrite Heq, Hnone. by rewrite lookup_insert_eq. }
      rewrite (initServices_keeps rest _ _ _ Hadd) in Hs. congruence.
    + destruct (IH (addService services r)) as (pre & r0 & post & -> & H1 & H2 & H3).
      * by rewrite addService_other.
      * done.
      * exists (r :: pre), r0, post. split; [done |]. split; [done |].
        split; [by constructor | done].
Qed.

Lemma initServices_covers routes services r name :
  In r routes ->
  hostOf r = Some name ->
  is_Some (initServices services routes !! name).
Proof.
  revert services. induction routes as [|r0 rest IH]; intros services Hin Hh;
    [done |].
  simpl. destruct Hin as [->|Hin]; [| by apply IH].
  assert (is_Some (addService services r !! name)) as [svc Hsvc].
  { unfold addService. rewrite Hh.
    destruct (services !! name) eqn:Hs; [by rewrite Hs |].
    by rewrite lookup_insert_eq. }
  rewrite (initServices_keeps rest _ _ _ Hsvc). done.
Qed.

(** X22. [initServices] on an empty service map registers one service per
    host name: a name is registered exactly when some route has a
    non-empty target that parses with that host name; the service carries
    that name, the status "unknown", no check time, and the target of the
    first such route of the table, so a later route with the same host
    and another target does not replace it. *)
Theorem initServices_first_target routes :
  (forall name svc,
     initServices ∅ routes !! name = Some svc ->
     exists pre r post,
       routes = pre ++ r :: post /\
       hostOf r = Some name /\
       Forall (fun r' => hostOf r' <> Some name) pre /\
       svc = mkService name (Target r) "unknown" 0) /\
  (forall r name,
     In r routes -> hostOf r = Some name ->
     is_Some (initServices ∅ routes !! name)).
Proof.
  split.
  - intros name svc. by apply initServices_lookup.
  - intros r name. apply initServices_covers.
Qed.

End Library.

Lemma statusOf_cases probe :
  statusOf probe = "healthy" \/ statusOf probe = "warning" \/
  statusOf probe = "error".
Proof.
  destruct probe; simpl; try tauto.
  destruct ((status <? 200) || (300 <=? status)); tauto.
Qed.

Lemma statusOf_healthy probe :
  statusOf probe = "healthy" <->
  exists status, probe = Answer status /\ 200 <= status < 300.
Proof.
  split.
  - destruct probe; simpl; try done.
    destruct (Z.ltb_spec status 200); [done |].
    destruct (Z.leb_spec 300 status); [done |].
    intros _. exists status. split; [done | lia].
  - intros (status & -> & Hs). simpl.
    destruct (Z.ltb_spec status 200); [lia |].
    destruct (Z.leb_spec 300 status); [lia | done].
Qed.

(** X23. [CheckHealth] probes every registered service and nothing else:
    the names in the map are as before, each service keeps its name and
    its URL and gets the clock reading of its probe as check time, and its
    status is "healthy", "warning" or "error", never "unknown"; it is
    "healthy" exactly when the probe was answered with a status code from
    200 to 299. *)
Theorem CheckHealth_statuses services clock probes name :
  (CheckHealth services clock probes !! name = None <->
   services !! name = None) /\
  (forall svc,
     services !! name = Some svc ->
     exists svc',
       CheckHealth services clock probes !! name = Some svc' /\
       Name svc' = Name svc /\
       URL svc' = URL svc /\
       LastCheck svc' = clock name /\
       Status svc' <> "unknown" /\
       (Status svc' = "healthy" \/ Status svc' = "warning" \/
        Status svc' = "error") /\
       (Status svc' = "healthy" <->
        exists status, probes name = Answer status /\ 200 <= status < 300)).
Proof.
  unfold CheckHealth. rewrite map_lookup_imap. split.
  - destruct (services !! name); simpl; split; done.
  - intros svc ->. simpl. eexists. split; [done |]. simpl.
    split; [done |]. split; [done |]. split; [done |].
    split; [| split; [apply statusOf_cases | apply statusOf_healthy]].
    destruct (statusOf_cases (probes name)) as [-> | [-> | ->]]; done.
Qed.

End ServicesFacts.

(** ** The handlers of the admin API *)

Module AdminFacts.
Import GoInt RouteTable RouteCRUD RouteCRUDFacts Gateway Admin.

Lemma AddRoute_lookup_new c route :
  ids_ok c ->
  GetRoute (snd (AddRoute c route)) (nextRouteID c)
  = Some (withID route (nextRouteID c)).
Proof.
  intros (_ & Hbelow & _). unfold GetRoute, AddRoute. simpl.
  rewrite getIn_app.
  assert (getIn (Routes c) (nextRouteID c) = None) as ->.
  { apply getIn_None. by apply below_not_in. }
  simpl. by rewrite Z.eqb_refl.
Qed.

Lemma UpdateRoute_missing c route :
  GetRoute c (ID route) = None -> UpdateRoute c route = (false, c).
Proof.
  intros Hnone. unfold UpdateRoute.
  apply updateIn_None in Hnone. by rewrite Hnone.
Qed.

Lemma UpdateRoute_present c route :
  is_Some (GetRoute c (ID route)) ->
  fst (UpdateRoute c route) = true /\
  GetRoute (snd (UpdateRoute c route)) (ID route) = Some route.
Proof.
  intros [old Hold]. unfold UpdateRoute, GetRoute in *.
  destruct (updateIn (Routes c) route) as [routes'|] eqn:Hu.
  - destruct (updateIn_Some _ _ _ Hu) as (H1 & _). by split.
  - apply updateIn_None in Hu. congruence.
Qed.

Lemma DeleteRoute_missing c id :
  GetRoute c id = None -> DeleteRoute c id = (false, c).
Proof.
  intros Hnone. unfold DeleteRoute.
  apply deleteIn_None in Hnone. by rewrite Hnone.
Qed.

Lemma DeleteRoute_present c id :
  is_Some (GetRoute c id) ->
  fst (DeleteRoute c id) = true /\
  (NoDup (map ID (Routes c)) -> GetRoute (snd (DeleteRoute c id)) id = None).
Proof.
  intros [old Hold]. unfold DeleteRoute, GetRoute in *.
  destruct (deleteIn (Routes c) id) as [routes'|] eqn:Hd.
  2: { apply deleteIn_None in Hd. congruence. }
  destruct (deleteIn_Some _ _ _ Hd) as (pre & old' & post & Hr & -> & Hid & Hpre).
  split; [done |]. simpl. intros Hnodup. apply getIn_None.
  rewrite Hr, map_app in Hnodup. simpl in Hnodup.
  apply NoDup_app in Hnodup as (H1 & H2 & H3).
  apply NoDup_cons in H3 as [H3 H4].
  rewrite map_app. intros Hin. apply in_app_or in Hin as [Hin|Hin]; [done |].
  apply H3. apply list_elem_of_In. by rewrite Hid.
Qed.

(** X24. [handleRoutes]: only a POST whose body decodes to a route that
    [validateRoute] accepts changes the route table; a 400 or 405 answer
    leaves it as it was, and GET answers the routes. Such a POST adds the
    route whatever [config.save()] returns: with a nil error the answer is
    201 with the route under the next id, with an error it is 500 and the
    route is in the table all the same. On a table whose ids are distinct
    and below the next id the new route is found under that id. *)
Theorem handleRoutes_create c method decoded saveErr :
  let res := handleRoutes c method decoded saveErr in
  (method <> "POST" -> snd res = c) /\
  (status (fst res) = StatusBadRequest \/
   status (fst res) = StatusMethodNotAllowed -> snd res = c) /\
  (method = "GET" -> fst res = mkReply StatusOK (RoutesJSON (Routes c))) /\
  (method = "POST" ->
   forall route,
     decoded = inr route ->
     validateRoute route = None ->
     snd res = snd (AddRoute c route) /\
     (saveErr = None ->
      fst res = mkReply StatusCreated
                        (RouteJSON (withID route (nextRouteID c)))) /\
     (saveErr <> None -> status (fst res) = StatusInternalServerError) /\
     (ids_ok c ->
      GetRoute (snd res) (nextRouteID c)
      = Some (withID route (nextRouteID c)))).
Proof.
  cbv zeta. unfold handleRoutes. split; [| split; [| split]].
  - intros Hm. destruct (String.eqb_spec method "GET"); [done |].
    destruct (String.eqb_spec method "POST"); done.
  - destruct (String.eqb method "GET"); [done |].
    destruct (String.eqb method "POST"); [| done].
    destruct decoded as [err|route]; [done |].
    destruct (validateRoute route); [done |].
    destruct saveErr; simpl; intros [H|H]; discriminate H.
  - by intros ->.
  - intros -> route -> Hvalid. simpl. rewrite Hvalid.
    split; [by destruct saveErr |]. split; [by intros -> |].
    split; [by destruct saveErr |].
    intros Hok. pose proof (AddRoute_lookup_new c route Hok) as Hget.
    by destruct saveErr.
Qed.

Section Library.
Variable Atoi : string -> option Z.

Local Abbreviation handleRoute := (handleRoute Atoi).
Local Abbreviation requestedID := (requestedID Atoi).

(** X25. [handleRoute] works on the id in the fourth part of the URL path.
    Without such a number the answer is 400. A 400, 404 or 405 answer and
    every GET leave the table as it was. PUT stores the decoded route
    under the id of the URL, whatever id the body carried: 404 and no
    change when the table has no such id, otherwise the route is found
    under that id afterwards. DELETE answers 404 when the table has no
    such id, otherwise the route is removed (also when saving fails), and
    on a table with distinct ids the id is not found afterwards. *)
Theorem handleRoute_by_id c method urlPath decoded saveErr :
  let res := handleRoute c method urlPath decoded saveErr in
  (In (status (fst res))
      [StatusBadRequest; StatusNotFound; StatusMethodNotAllowed] ->
   snd res = c) /\
  (requestedID urlPath = None ->
   res = (mkReply StatusBadRequest (Message "Invalid route ID"), c)) /\
  (forall id,
     requestedID urlPath = Some id ->
     (method = "GET" ->
      snd res = c /\
      fst res = match GetRoute c id with
                | Some route => mkReply StatusOK (RouteJSON route)
                | None => mkReply StatusNotFound (Message "Route not found")
                end) /\
     (method = "PUT" ->
      forall route,
        decoded = inr route ->
        validateRoute (withID route id) = None ->
        (GetRoute c id = None ->
         res = (mkReply StatusNotFound (Message "Route not found"), c)) /\
        (is_Some (GetRoute c id) ->
         snd res = snd (UpdateRoute c (withID route id)) /\
         GetRoute (snd res) id = Some (withID route id) /\
         (saveErr = None ->
          fst res = mkReply StatusOK (RouteJSON (withID route id))))) /\
     (method = "DELETE" ->
      (GetRoute c id = None ->
       res = (mkReply StatusNotFound (Message "Route not found"), c)) /\
      (is_Some (GetRoute c id) ->
       snd res = snd (DeleteRoute c id) /\
       (saveErr = None -> fst res = mkReply StatusNoContent NoBody) /\
       (saveErr <> None -> status (fst res) = StatusInternalServerError) /\
       (NoDup (map ID (Routes c)) -> GetRoute (snd res) id = None)))).
Proof.
  cbv zeta. unfold Admin.handleRoute, Admin.requestedID.
  destruct (length (Auth.Split "/" urlPath) <? 4)%nat.
  { split; [done |]. split; [done |]. intros id [=]. }
  destruct (Atoi (nth 3 (Auth.Split "/" urlPath) "")) as [id|].
  2: { split; [done |]. split; [done |]. intros id [=]. }
  split; [| split; [done |]].
  - destruct (String.eqb method "GET").
    { by destruct (GetRoute c id). }
    destruct (String.eqb method "PUT").
    { destruct decoded as [err|route]; [done |].
      destruct (validateRoute (withID route id)); [done |].
      destruct (GetRoute c id) as [old|] eqn:Hold.
      - destruct (UpdateRoute_present c (withID route id)) as [Hfst _];
          [change (ID (withID route id)) with id; by rewrite Hold |].
        destruct (UpdateRoute c (withID route id)) as [ok c']. simpl in Hfst.
        subst ok. simpl.
        destruct saveErr; simpl; intros [H|[H|[H|[]]]]; discriminate H.
      - by rewrite (UpdateRoute_missing c (withID route id) Hold). }
    destruct (String.eqb method "DELETE"); [| done].
    destruct (GetRoute c id) as [old|] eqn:Hold.
    + destruct (DeleteRoute_present c id) as [Hfst _]; [by rewrite Hold |].
      destruct (DeleteRoute c id) as [ok c']. simpl in Hfst. subst ok. simpl.
      destruct saveErr; simpl; intros [H|[H|[H|[]]]]; discriminate H.
    + by rewrite (DeleteRoute_missing c id Hold).
  - intros id' [= <-]. split; [| split].
    + intros ->. simpl. by destruct (GetRoute c id).
    + intros -> route -> Hvalid. simpl. rewrite Hvalid. split.
      * intros Hnone. by rewrite (UpdateRoute_missing c (withID route id) Hnone).
      * intros Hsome.
        destruct (UpdateRoute_present c (withID route id) Hsome) as [Hfst Hget].
        destruct (UpdateRoute c (withID route id)) as [ok c']. simpl in *.
        subst ok. simpl. split; [by destruct saveErr |].
        split; [by destruct saveErr |]. by intros ->.
    + intros ->. simpl. split.
      * intros Hnone. by rewrite (DeleteRoute_missing c id Hnone).
      * intros Hsome.
        destruct (DeleteRoute_present c id Hsome) as [Hfst Hgone].
        destruct (DeleteRoute c id) as [ok c']. simpl in *.
        subst ok. simpl. split; [by destruct saveErr |].
        split; [by intros -> |]. split; [by destruct saveErr |].
        intros Hnd. specialize (Hgone Hnd). by destruct saveErr.
Qed.

End Library.

Lemma handleRoute_by_id_witness :
  handleRoute decimal (mkConfig 8000 true 100 30 defaultRoutes 5)
              "DELETE" "/api/routes/9" (inl "EOF") None
  = (mkReply StatusNotFound (Message "Route not found"),
     mkConfig 8000 true 100 30 defaultRoutes 5) /\
  GetRoute (snd (handleRoute decimal
                   (mkConfig 8000 true 100 30 defaultRoutes 5)
                   "PUT" "/api/routes/2" (inr ordersRoute) None)) 2
  = Some (withID ordersRoute 2).
Proof.
  destruct (handleRoute_by_id decimal
              (mkConfig 8000 true 100 30 defaultRoutes 5)
              "DELETE" "/api/routes/9" (inl "EOF") None) as (_ & _ & H).
  destruct (H 9 eq_refl) as (_ & _ & Hdel).
  destruct (Hdel eq_refl) as [Hmissing _].
  destruct (handleRoute_by_id decimal
              (mkConfig 8000 true 100 30 defaultRoutes 5)
              "PUT" "/api/routes/2" (inr ordersRoute) None) as (_ & _ & H').
  destruct (H' 2 eq_refl) as (_ & Hput & _).
  destruct (Hput eq_refl ordersRoute eq_refl eq_refl) as [_ Hpresent].
  destruct Hpresent as (_ & Hget & _); [by eexists |].
  split; [exact (Hmissing eq_refl) | exact Hget].
Defined.

Lemma addAll_ids routes c :
  0 <= nextRouteID c ->
  nextRouteID c + Z.of_nat (length routes) < 2 ^ 63 ->
  map ID (Routes (addAll c routes))
  = map ID (Routes c) ++ seqZ (nextRouteID c) (Z.of_nat (length routes)).
Proof.
  revert c. induction routes as [|r rest IH]; intros c Hpos Hsmall.
  - simpl. by rewrite app_nil_r.
  - pose proof RateLimiterFacts.pow63_pos as Hp.
    assert (nextRouteID (snd (AddRoute c r)) = nextRouteID c + 1) as Hnext.
    { unfold AddRoute. simpl. apply wrap64_id. unfold in_int64.
      simpl length in Hsmall. lia. }
    change (addAll c (r :: rest)) with (addAll (snd (AddRoute c r)) rest).
    rewrite IH; rewrite Hnext; [| lia | simpl length in Hsmall; lia].
    unfold AddRoute. simpl Routes. rewrite map_app. simpl map.
    rewrite <- app_assoc. f_equal. simpl app.
    rewrite (seqZ_cons (nextRouteID c)) by (simpl length; lia).
    f_equal. f_equal; simpl length; lia.
Qed.

(** X26. A PUT on the configuration endpoint whose body decodes keeps the
    routes and takes the settings of the body, and it restarts the id
    counter at zero, also when saving fails: the routes added afterwards
    get the ids 0, 1, 2, ... in turn, so as soon as that run reaches the
    id of a route that was in the table, two routes share an id. *)
Theorem handleConfig_put_restarts_ids c newConfig saveErr :
  let c' := snd (handleConfig c "PUT" (inr newConfig) saveErr) in
  Routes c' = Routes c /\
  Port c' = Port newConfig /\
  EnableRateLimit c' = EnableRateLimit newConfig /\
  DefaultRateLimit c' = DefaultRateLimit newConfig /\
  DefaultTimeout c' = DefaultTimeout newConfig /\
  nextRouteID c' = 0 /\
  (forall routes,
     Z.of_nat (length routes) < 2 ^ 63 ->
     map ID (Routes (addAll c' routes))
     = map ID (Routes c) ++ seqZ 0 (Z.of_nat (length routes))) /\
  (forall routes r,
     Z.of_nat (length routes) < 2 ^ 63 ->
     In r (Routes c) ->
     0 <= ID r < Z.of_nat (length routes) ->
     ~ NoDup (map ID (Routes (addAll c' routes)))).
Proof.
  cbv zeta.
  assert (snd (handleConfig c "PUT" (inr newConfig) saveErr)
          = withRoutes newConfig (Routes c) 0) as ->.
  { unfold handleConfig. simpl. by destruct saveErr. }
  repeat (split; [done |]).
  assert (forall routes,
            Z.of_nat (length routes) < 2 ^ 63 ->
            map ID (Routes (addAll (withRoutes newConfig (Routes c) 0) routes))
            = map ID (Routes c) ++ seqZ 0 (Z.of_nat (length routes))) as Hids.
  { intros routes Hlen. by rewrite addAll_ids. }
  split; [exact Hids |].
  intros routes r Hlen Hin Hid Hnd. rewrite Hids in Hnd by done.
  apply NoDup_app in Hnd as (_ & Hdisj & _).
  apply (Hdisj (ID r)).
  - apply list_elem_of_In. by apply in_map.
  - apply elem_of_seqZ. lia.
Qed.

Lemma handleConfig_put_restarts_ids_witness :
  map ID (Routes (addAll
                    (snd (handleConfig
                            (mkConfig 8000 true 100 30 defaultRoutes 5) "PUT"
                            (inr (mkConfig 9000 false 10 5 [] 0)) None))
                    [ordersRoute; ordersRoute]))
  = [1; 2; 3; 4; 0; 1].
Proof.
  destruct (handleConfig_put_restarts_ids
              (mkConfig 8000 true 100 30 defaultRoutes 5)
              (mkConfig 9000 false 10 5 [] 0) None) as (_ & _ & _ & _ & _ & _ & H & _).
  apply (H [ordersRoute; ordersRoute]). simpl. lia.
Defined.

(** X27. When [handleProxyRequest] answers by itself, the proxy was not
    called: its statistics and its in-flight counter are as before, and so
    is the configuration. The answer is 404 when no route matches, 429 when
    the limiter refuses, 401 when the route requires authentication and the
    Authorization header is empty. A 404 leaves the limiter untouched; a 401
    comes after the limiter was asked, so the request has used a token of
    its route. *)
Theorem handleProxyRequest_rejections g r created now x status g' :
  handleProxyRequest g r created now x = (Answered status, g') ->
  proxy g' = proxy g /\
  Gateway.config g' = Gateway.config g /\
  ((status = StatusNotFound /\
    FindRouteByPath (Gateway.config g) (URLPath r) (Method r) = None /\
    g' = g) \/
   exists route,
     FindRouteByPath (Gateway.config g) (URLPath r) (Method r) = Some route /\
     ((status = StatusTooManyRequests /\
       EnableRateLimit (Gateway.config g) = true /\
       RateLimiter.Allow (rateLimiter g) (Path route) (RateLimit route)
                         created now
       = (false, rateLimiter g')) \/
      (status = StatusUnauthorized /\
       AuthRequired route = true /\
       Authorization r = "" /\
       (EnableRateLimit (Gateway.config g) = true ->
        RateLimiter.Allow (rateLimiter g) (Path route) (RateLimit route)
                          created now
        = (true, rateLimiter g')) /\
       (EnableRateLimit (Gateway.config g) = false ->
        rateLimiter g' = rateLimiter g)))).
Proof.
  unfold handleProxyRequest.
  destruct (FindRouteByPath _ _ _) as [route|] eqn:Hfind.
  2: { intros [= <- <-]. split; [done |]. split; [done |]. by left. }
  destruct (EnableRateLimit (Gateway.config g)) eqn:Hen.
  - destruct (RateLimiter.Allow _ _ _ _ _) as [allowed rl] eqn:Hallow.
    destruct allowed; simpl.
    + destruct (AuthRequired route) eqn:Hauth; simpl.
      * destruct (String.eqb_spec (Authorization r) "") as [Hempty|Hne].
        -- intros [= <- <-]. simpl. split; [done |]. split; [done |].
           right. exists route. split; [done |]. right. by repeat split.
        -- destruct (ProxyStats.ProxyRequest _ _ _). intros [=].
      * destruct (ProxyStats.ProxyRequest _ _ _). intros [=].
    + intros [= <- <-]. simpl. split; [done |]. split; [done |].
      right. exists route. split; [done |]. left. by repeat split.
  - simpl. destruct (AuthRequired route) eqn:Hauth; simpl.
    + destruct (String.eqb_spec (Authorization r) "") as [Hempty|Hne].
      * intros [= <- <-]. simpl. split; [done |]. split; [done |].
        right. exists route. split; [done |]. right. by repeat split.
      * destruct (ProxyStats.ProxyRequest _ _ _). intros [=].
    + destruct (ProxyStats.ProxyRequest _ _ _). intros [=].
Qed.

Lemma handleProxyRequest_rejections_witness :
  proxy (snd (handleProxyRequest gateway0 noHeader 0 0 answered200))
  = proxy gateway0.
Proof.
  destruct (handleProxyRequest_rejections gateway0 noHeader 0 0 answered200
              StatusUnauthorized
              (snd (handleProxyRequest gateway0 noHeader 0 0 answered200)))
    as [H _].
  - vm_compute. reflexivity.
  - exact H.
Defined.

End AdminFacts.
